(** * Lamport's bakery lock (src/BakeryLock.py)

    A shallow embedding of the class [BakeryLock]: the registry it keeps
    ([self.n], [self.choosing], [self.number]), Python's list indexing with
    its negative indices and its [IndexError], the constructor, [unlock],
    and [lock] as a small-step program whose every step performs at most one
    read or one write of a list element.  Threads are interleaved over a
    sequentially consistent shared registry. *)

From stdpp Require Import base list.
From Stdlib Require Import ZArith Lia Bool.

Local Open Scope Z_scope.

(** ** Python lists indexed by integers *)

Inductive exn := IndexError | ValueError.

Inductive res (A : Type) :=
| Ok (a : A)
| Raise (e : exn).
Arguments Ok {A} a.
Arguments Raise {A} e.

(** [l[i]] resolves a non-negative index as it is and a negative one from the
    end of the list; anything else has no slot. *)
Definition py_index (len i : Z) : option nat :=
  if (0 <=? i) && (i <? len) then Some (Z.to_nat i)
  else if (- len <=? i) && (i <? 0) then Some (Z.to_nat (len + i))
  else None.

Definition getitem {A} (l : list A) (i : Z) : res A :=
  match py_index (Z.of_nat (length l)) i with
  | Some k => match l !! k with Some x => Ok x | None => Raise IndexError end
  | None => Raise IndexError
  end.

Definition setitem {A} (l : list A) (i : Z) (x : A) : res (list A) :=
  match py_index (Z.of_nat (length l)) i with
  | Some k => Ok (<[k:=x]> l)
  | None => Raise IndexError
  end.

(** ** The registry *)

Record BakeryLock := mkBakeryLock {
  n : Z;
  choosing : list bool;
  number : list Z
}.

Definition set_choosing (s : BakeryLock) (c : list bool) : BakeryLock :=
  mkBakeryLock (n s) c (number s).

Definition set_number (s : BakeryLock) (m : list Z) : BakeryLock :=
  mkBakeryLock (n s) (choosing s) m.

(** [__init__]: [[False] * n_processes] and [[0] * n_processes]; a list
    multiplied by a non-positive integer is empty. *)
Definition init (n_processes : Z) : BakeryLock :=
  mkBakeryLock n_processes
               (replicate (Z.to_nat n_processes) false)
               (replicate (Z.to_nat n_processes) 0).

(** [unlock]: the single statement [self.number[pid] = 0]. *)
Definition unlock (pid : Z) (s : BakeryLock) : res BakeryLock :=
  match setitem (number s) pid 0 with
  | Ok m => Ok (set_number s m)
  | Raise e => Raise e
  end.

(** ** [lock], one shared-memory access per step

    The control points of a thread running [process_work]'s cycle
    [lock(pid)]; critical section; [unlock(pid)]. *)
Inductive pc :=
| Idle                          (* outside: next is line 13 *)
| MaxRead (k : Z) (m : option Z)(* line 16, inside [max]: next read is
                                   [number[k]], [m] the maximum so far *)
| Store (m : Z)                 (* line 16: [max] returned [m] *)
| ClearCh                       (* line 19 *)
| WaitCh (j : Z)                (* line 24 *)
| WaitNZ (j : Z)                (* line 28: [number[j] != 0] *)
| LtA (j : Z)                   (* line 29, left operand *)
| LtB (j : Z) (a : Z)           (* line 29, right operand and [<] *)
| EqA (j : Z)                   (* line 30, left operand *)
| EqB (j : Z) (a : Z)           (* line 30, right operand, [==], [j < pid] *)
| CS                            (* [lock] returned: critical section *)
| Raised (e : exn).             (* an exception left the thread *)

(** One comparison of [max]: the running maximum [m] (nothing yet before the
    first item) against the next item [v]. *)
Definition keep_max (m : option Z) (v : Z) : Z :=
  match m with
  | None => v
  | Some w => if w <? v then v else w
  end.

(** [max(l)] as a whole; the builtin raises [ValueError] on an empty list. *)
Fixpoint max_from (m : option Z) (l : list Z) : option Z :=
  match l with
  | [] => m
  | v :: l' => max_from (Some (keep_max m v)) l'
  end.

Definition py_max (l : list Z) : res Z :=
  match max_from None l with
  | Some w => Ok w
  | None => Raise ValueError
  end.

(** [for j in range(self.n)]: the loop variable after [j], or the end of
    [lock]. *)
Definition loop_from (s : BakeryLock) (j : Z) : pc :=
  if j <? n s then WaitCh j else CS.

Definition step (pid : Z) (s : BakeryLock) (l : pc) : BakeryLock * pc :=
  match l with
  | Idle =>
      match setitem (choosing s) pid true with
      | Ok c => (set_choosing s c, MaxRead 0 None)
      | Raise e => (s, Raised e)
      end
  | MaxRead k m =>
      if k <? Z.of_nat (length (number s)) then
        match getitem (number s) k with
        | Ok v =>
            (s, MaxRead (k + 1) (Some (keep_max m v)))
        | Raise e => (s, Raised e)
        end
      else
        match m with
        | Some w => (s, Store w)
        | None => (s, Raised ValueError)
        end
  | Store m =>
      match setitem (number s) pid (m + 1) with
      | Ok nm => (set_number s nm, ClearCh)
      | Raise e => (s, Raised e)
      end
  | ClearCh =>
      match setitem (choosing s) pid false with
      | Ok c => (set_choosing s c, loop_from s 0)
      | Raise e => (s, Raised e)
      end
  | WaitCh j =>
      match getitem (choosing s) j with
      | Ok true => (s, WaitCh j)
      | Ok false => (s, WaitNZ j)
      | Raise e => (s, Raised e)
      end
  | WaitNZ j =>
      match getitem (number s) j with
      | Ok v => (s, if v =? 0 then loop_from s (j + 1) else LtA j)
      | Raise e => (s, Raised e)
      end
  | LtA j =>
      match getitem (number s) j with
      | Ok a => (s, LtB j a)
      | Raise e => (s, Raised e)
      end
  | LtB j a =>
      match getitem (number s) pid with
      | Ok b => (s, if a <? b then WaitNZ j else EqA j)
      | Raise e => (s, Raised e)
      end
  | EqA j =>
      match getitem (number s) j with
      | Ok a => (s, EqB j a)
      | Raise e => (s, Raised e)
      end
  | EqB j a =>
      match getitem (number s) pid with
      | Ok b =>
          (s, if (a =? b) && (j <? pid) then WaitNZ j else loop_from s (j + 1))
      | Raise e => (s, Raised e)
      end
  | CS =>
      match unlock pid s with
      | Ok s' => (s', Idle)
      | Raise e => (s, Raised e)
      end
  | Raised e => (s, Raised e)
  end.

(** [lock(pid)] run by one thread with nobody else writing: steps are taken
    until [lock] has returned or raised, or the fuel is spent. *)
Fixpoint run (fuel : nat) (pid : Z) (s : BakeryLock) (l : pc) : BakeryLock * pc :=
  match fuel with
  | O => (s, l)
  | S f =>
      match l with
      | CS | Raised _ => (s, l)
      | _ => let '(s', l') := step pid s l in run f pid s' l'
      end
  end.

Definition lock (fuel : nat) (pid : Z) (s : BakeryLock) : BakeryLock * pc :=
  run fuel pid s Idle.

(** ** Threads interleaved over one registry *)

Record System := mkSystem {
  mem : BakeryLock;
  pcs : Z -> pc
}.

Definition upd (f : Z -> pc) (p : Z) (l : pc) : Z -> pc :=
  fun q => if q =? p then l else f q.

(** Thread [p] (whose process identity is [p], as in [main]) takes its next
    step. *)
Definition sched (st : System) (p : Z) : System :=
  let '(s', l') := step p (mem st) (pcs st p) in
  mkSystem s' (upd (pcs st) p l').

Definition boot (n_processes : Z) : System :=
  mkSystem (init n_processes) (fun _ => Idle).

Inductive reachable (np : Z) : System -> Prop :=
| reach_boot : reachable np (boot np)
| reach_sched st p :
    reachable np st -> 0 <= p < np -> reachable np (sched st p).

Definition run_schedule (np : Z) (ps : list Z) : System :=
  fold_left sched ps (boot np).

(** A registry as [__init__] shapes it: both lists have [self.n] slots. *)
Definition wf (s : BakeryLock) : Prop :=
  0 <= n s /\
  Z.of_nat (length (choosing s)) = n s /\
  Z.of_nat (length (number s)) = n s.

(** The condition of the second [while] of [lock], lines 28 to 31, on the
    values [vj = number[j]] and [vp = number[pid]]. *)
Definition blocks (vj vp j pid : Z) : bool :=
  negb (vj =? 0) && ((vj <? vp) || ((vj =? vp) && (j <? pid))).

(** ** What the other threads see of one thread's step

    [num s i] and [chs s i] read slot [i] of the registry.  [tstep] is
    [step] on a registry all of whose slots exist, written over these two
    readers: it returns the thread's own ticket and flag after the step and
    its next control point.  [step_view] below relates the two. *)
Definition num (s : BakeryLock) (i : Z) : Z :=
  default 0 (number s !! Z.to_nat i).

Definition chs (s : BakeryLock) (i : Z) : bool :=
  default false (choosing s !! Z.to_nat i).

Definition tstep (np p : Z) (rdn : Z -> Z) (rdc : Z -> bool) (l : pc)
  : Z * bool * pc :=
  let same := fun l' => (rdn p, rdc p, l') in
  let from := fun j => if j <? np then WaitCh j else CS in
  match l with
  | Idle => (rdn p, true, MaxRead 0 None)
  | MaxRead k m =>
      if k <? np then
        same (MaxRead (k + 1) (Some (keep_max m (rdn k))))
      else
        match m with
        | Some w => same (Store w)
        | None => same (Raised ValueError)
        end
  | Store m => (m + 1, rdc p, ClearCh)
  | ClearCh => (rdn p, false, from 0)
  | WaitCh j => same (if rdc j then WaitCh j else WaitNZ j)
  | WaitNZ j => same (if rdn j =? 0 then from (j + 1) else LtA j)
  | LtA j => same (LtB j (rdn j))
  | LtB j a => same (if a <? rdn p then WaitNZ j else EqA j)
  | EqA j => same (EqB j (rdn j))
  | EqB j a =>
      same (if (a =? rdn p) && (j <? p) then WaitNZ j else from (j + 1))
  | CS => (0, rdc p, Idle)
  | Raised e => same (Raised e)
  end.

(** ** The invariant behind mutual exclusion *)

(** Ticket [(vi, i)] is served before ticket [(vj, j)]. *)
Definition prec (vi i vj j : Z) : Prop := vi < vj \/ (vi = vj /\ i < j).

(** The thread has left the [for] iteration of peer [j] behind. *)
Definition passed (l : pc) (j : Z) : Prop :=
  match l with
  | WaitCh jj | WaitNZ jj | LtA jj | LtB jj _ | EqA jj | EqB jj _ => j < jj
  | CS => True
  | _ => False
  end.

(** The thread is in the iteration of peer [j] and has seen
    [choosing[j]] false. *)
Definition checking (l : pc) (j : Z) : Prop :=
  match l with
  | WaitNZ jj | LtA jj | LtB jj _ | EqA jj | EqB jj _ => jj = j
  | _ => False
  end.

(** A peer at [lj] that is drawing a ticket has read, or will still read,
    the ticket [vi] of thread [i]. *)
Definition seen (vi i : Z) (lj : pc) : Prop :=
  match lj with
  | MaxRead k m => k <= i \/ match m with Some w => vi <= w | None => False end
  | Store m => vi <= m
  | _ => True
  end.

(** Thread [i] holds ticket [vi] and peer [j], at [lj] with ticket [vj],
    cannot get past it: [j] is outside, or will draw a larger ticket, or
    holds a later ticket and has not left the iteration of [i]. *)
Definition before (vi i vj j : Z) (lj : pc) : Prop :=
  0 < vi /\
  match lj with
  | Idle => True
  | MaxRead k m => k <= i \/ match m with Some w => vi <= w | None => False end
  | Store m => vi <= m
  | ClearCh => prec vi i vj j
  | WaitCh jj | WaitNZ jj | LtA jj | LtB jj _ | EqA jj | EqB jj _ =>
      prec vi i vj j /\ jj <= i
  | CS => False
  | Raised _ => False
  end.

(** What thread [i] has read of [number[j]] inside the second [while] is
    still what the slot holds. *)
Definition fresh (li : pc) (j vi vj : Z) : Prop :=
  match li with
  | LtB jj a => jj = j -> a = vj
  | EqA jj => jj = j -> vi <= vj
  | EqB jj a => jj = j -> a = vj /\ vi <= vj
  | _ => True
  end.

Definition pair_inv (vi i : Z) (li : pc) (vj j : Z) (lj : pc) : Prop :=
  (passed li j -> before vi i vj j lj) /\
  ((checking li j \/ passed li j) -> seen vi i lj) /\
  (before vj j vi i li -> fresh li j vi vj) /\
  (fresh li j vi vj \/ before vi i vj j lj).

(** A thread's own slot at each control point. *)
Definition loc_inv (np p : Z) (v : Z) (c : bool) (l : pc) : Prop :=
  match l with
  | Idle => v = 0 /\ c = false
  | MaxRead k m =>
      v = 0 /\ c = true /\ 0 <= k <= np /\
      match m with Some w => 0 <= w /\ 0 < k | None => k = 0 end
  | Store m => v = 0 /\ c = true /\ 0 <= m
  | ClearCh => 0 < v /\ c = true
  | WaitCh j | WaitNZ j | LtA j | EqA j =>
      0 < v /\ c = false /\ 0 <= j < np
  | LtB j a | EqB j a =>
      0 < v /\ c = false /\ 0 <= j < np /\ (j = p -> a = v)
  | CS => 0 < v /\ c = false
  | Raised _ => False
  end.

Definition inv (np : Z) (st : System) : Prop :=
  wf (mem st) /\ n (mem st) = np /\
  (forall i, 0 <= i < np ->
     loc_inv np i (num (mem st) i) (chs (mem st) i) (pcs st i)) /\
  (forall i j, 0 <= i < np -> 0 <= j < np -> i <> j ->
     pair_inv (num (mem st) i) i (pcs st i) (num (mem st) j) j (pcs st j)).

(** ** Control points inside the [for] loop, and indices that exist *)

(** The thread is at or after line 22. *)
Definition in_loop (l : pc) : Prop :=
  match l with
  | WaitCh _ | WaitNZ _ | LtA _ | LtB _ _ | EqA _ | EqB _ _ | CS | Raised _ =>
      True
  | _ => False
  end.

(** The slots a control point is about to read exist in a registry of [np]
    slots. *)
Definition well_indexed (np : Z) (l : pc) : Prop :=
  match l with
  | MaxRead k m => 0 <= k /\ (m = None -> k < np)
  | WaitCh j | WaitNZ j | LtA j | LtB j _ | EqA j | EqB j _ => 0 <= j < np
  | Raised _ => False
  | _ => True
  end.

(** ** Concrete registries and a concrete schedule *)

Definition stale_registry : BakeryLock :=
  mkBakeryLock 3 [false; false; false] [2; 0; 5].

Definition quiet_registry : BakeryLock :=
  mkBakeryLock 3 [false; true; false] [0; 4; 0].

Definition tie_registry : BakeryLock :=
  mkBakeryLock 2 [false; false] [1; 1].

(** Two threads draw the same ticket; thread 0 is admitted. *)
Definition tie_schedule : list Z :=
  [0;1;0;1;0;1;0;1;0;1;0;1;0;1;0;1;0;1;0;1;0;0;0;0;0;0;0;0].

(** ** Phases of [lock] as the registry shows them *)

(** Lines 16 to 19: [choosing[pid]] is set. *)
Definition announcing (l : pc) : bool :=
  match l with
  | MaxRead _ _ | Store _ | ClearCh => true
  | _ => false
  end.

(** From the store of line 16 to [unlock]: [number[pid]] is a ticket. *)
Definition holds_ticket (l : pc) : bool :=
  match l with
  | ClearCh | WaitCh _ | WaitNZ _ | LtA _ | LtB _ _ | EqA _ | EqB _ _ | CS =>
      true
  | _ => false
  end.

(** The peer a thread inside the [for] loop is looking at. *)
Definition wait_index (l : pc) : option Z :=
  match l with
  | WaitCh j | WaitNZ j | LtA j | LtB j _ | EqA j | EqB j _ => Some j
  | _ => None
  end.

(** Thread [p] alone takes [k] steps. *)
Fixpoint solo (k : nat) (st : System) (p : Z) : System :=
  match k with
  | O => st
  | S k' => solo k' (sched st p) p
  end.

(** The control points thread [p] goes through in [k] steps of its own while
    the registry, read through [rdn] and [rdc], holds still. *)
Fixpoint spin (np p : Z) (rdn : Z -> Z) (rdc : Z -> bool) (k : nat) (l : pc)
  : pc :=
  match k with
  | O => l
  | S k' => spin np p rdn rdc k' (snd (tstep np p rdn rdc l))
  end.

(** Within [b] steps the thread is through with peer [j]. *)
Definition exits (np p : Z) (rdn : Z -> Z) (rdc : Z -> bool) (j : Z) (l : pc)
  (b : nat) : Prop :=
  exists k, (k <= b)%nat /\
    (forall k', (k' < k)%nat -> wait_index (spin np p rdn rdc k' l) = Some j) /\
    wait_index (spin np p rdn rdc k l) <> Some j.

(** ** [SharedCounter]

    [increment] is a read, a sleep and a write: two accesses of
    [self.count] that other threads can come between. *)
Record SharedCounter := mkSharedCounter { count : Z }.

Inductive ipc :=
| Fetch                 (* next: [temp = self.count] *)
| Put (temp : Z)        (* asleep; next: [self.count = temp + 1] *)
| Back.                 (* [increment] returned *)

Definition increment (c : SharedCounter) (l : ipc) : SharedCounter * ipc :=
  match l with
  | Fetch => (c, Put (count c))
  | Put temp => (mkSharedCounter (temp + 1), Back)
  | Back => (c, Back)
  end.

(** Two threads calling [increment] on one counter with no lock around it;
    [who] says whose step is next. *)
Definition bare_step (st : SharedCounter * ipc * ipc) (who : bool)
  : SharedCounter * ipc * ipc :=
  let '(c, a, b) := st in
  if who then let '(c', b') := increment c b in (c', a, b')
  else let '(c', a') := increment c a in (c', a', b).

Definition bare_run (c : SharedCounter) (ws : list bool)
  : SharedCounter * ipc * ipc :=
  fold_left bare_step ws (c, Fetch, Fetch).

(** ** [process_work]

    The thread's place in [for _ in range(n_iterations)]: [d] iterations are
    behind it.  The [print]s and [time.sleep]s touch neither the lock nor
    the counter and are left out. *)
Inductive wpc :=
| InLock (d : Z) (l : pc)   (* in [lock.lock(pid)]; at [CS] it has returned *)
| InIncr (d : Z) (i : ipc)  (* in [counter.increment()]; at [Back] the next
                               statement is [lock.unlock(pid)] *)
| Finished.

Definition next_iteration (n_iterations d : Z) : wpc :=
  if d <? n_iterations then InLock d Idle else Finished.

Definition process_work (pid n_iterations : Z) (s : BakeryLock)
  (c : SharedCounter) (w : wpc) : BakeryLock * SharedCounter * wpc :=
  match w with
  | InLock d CS => let '(c', i') := increment c Fetch in (s, c', InIncr d i')
  | InLock d l => let '(s', l') := step pid s l in (s', c, InLock d l')
  | InIncr d Back =>
      match unlock pid s with
      | Ok s' => (s', c, next_iteration n_iterations (d + 1))
      | Raise e => (s, c, InLock d (Raised e))
      end
  | InIncr d i => let '(c', i') := increment c i in (s, c', InIncr d i')
  | Finished => (s, c, Finished)
  end.

(** ** [main]: the threads over one lock and one counter *)
Record World := mkWorld {
  the_lock : BakeryLock;
  counter : SharedCounter;
  threads : Z -> wpc
}.

Definition wupd (f : Z -> wpc) (p : Z) (w : wpc) : Z -> wpc :=
  fun q => if q =? p then w else f q.

Definition wsched (n_iterations : Z) (w : World) (p : Z) : World :=
  let '(s', c', t') :=
    process_work p n_iterations (the_lock w) (counter w) (threads w p) in
  mkWorld s' c' (wupd (threads w) p t').

Definition start (n_processes n_iterations : Z) : World :=
  mkWorld (init n_processes) (mkSharedCounter 0)
          (fun _ => next_iteration n_iterations 0).

Inductive wreachable (np K : Z) : World -> Prop :=
| wreach_start : wreachable np K (start np K)
| wreach_sched w p :
    wreachable np K w -> 0 <= p < np -> wreachable np K (wsched K w p).

Definition run_world (np K : Z) (ps : list Z) : World :=
  fold_left (wsched K) ps (start np K).

(** Every [thread.join()] has returned. *)
Definition all_finished (np : Z) (w : World) : bool :=
  forallb (fun i => match threads w (Z.of_nat i) with
                    | Finished => true
                    | _ => false
                    end)
          (seq 0 (Z.to_nat np)).

(** [main] under the schedule [ps]: the two numbers it prints, the final
    counter value and the expected one, once all threads have ended. *)
Definition main (ps : list Z) : option (Z * Z) :=
  let n_processes := 3 in
  let n_iterations := 2 in
  let w := run_world n_processes n_iterations ps in
  if all_finished n_processes w
  then Some (count (counter w), n_processes * n_iterations)
  else None.

(** Each thread in turn, forty steps each. *)
Definition serial_schedule : list Z :=
  replicate 40 0 ++ replicate 40 1 ++ replicate 40 2.

(** Thread 0 alone, up to its read of the counter. *)
Definition entering_schedule : list Z := replicate 18 0.

(** ** The invariant of the counter *)

(** What the lock sees of a worker. *)
Definition view (w : wpc) : pc :=
  match w with
  | InLock _ l => l
  | InIncr _ _ => CS
  | Finished => Idle
  end.

Definition lock_system (w : World) : System :=
  mkSystem (the_lock w) (fun i => view (threads w i)).

(** Increments the thread has completed. *)
Definition completed (n_iterations : Z) (w : wpc) : Z :=
  match w with
  | InLock d _ => d
  | InIncr d Back => d + 1
  | InIncr d _ => d
  | Finished => Z.max 0 n_iterations
  end.

Definition thread_ok (n_iterations c : Z) (w : wpc) : Prop :=
  match w with
  | InLock d _ => 0 <= d < n_iterations
  | InIncr d i =>
      0 <= d < n_iterations /\ match i with Put t => t = c | _ => True end
  | Finished => True
  end.

Fixpoint sumZ (f : Z -> Z) (k : nat) : Z :=
  match k with
  | O => 0
  | S k' => sumZ f k' + f (Z.of_nat k')
  end.

Definition winv (np K : Z) (w : World) : Prop :=
  inv np (lock_system w) /\
  (forall i, 0 <= i < np ->
     thread_ok K (count (counter w)) (threads w i)) /\
  count (counter w)
  = sumZ (fun i => completed K (threads w i)) (Z.to_nat np).

(** Where two bare calls can be, from a counter that held [c0]. *)
Definition race_inv (c0 : Z) (st : SharedCounter * ipc * ipc) : Prop :=
  let '(c, a, b) := st in
  match a, b with
  | Fetch, Fetch => count c = c0
  | Put t, Fetch | Fetch, Put t => t = c0 /\ count c = c0
  | Put t, Put u => t = c0 /\ u = c0 /\ count c = c0
  | Back, Fetch | Fetch, Back => count c = c0 + 1
  | Back, Put t | Put t, Back =>
      count c = c0 + 1 /\ (t = c0 \/ t = c0 + 1)
  | Back, Back => count c = c0 + 1 \/ count c = c0 + 2
  end.

(** ** Proof automation *)

Ltac same_registry :=
  eexists; split; [reflexivity|]; repeat split; try assumption; try tauto;
  intros q Hq; cbn [fst snd];
  match goal with
  | |- context [Z.eqb q ?x] => destruct (Z.eqb_spec q x) as [->|]
  end; reflexivity.

Ltac brk :=
  repeat match goal with
  | |- context [if Z.ltb ?a ?b then _ else _] => destruct (Z.ltb_spec0 a b)
  | |- context [if Z.eqb ?a ?b then _ else _] => destruct (Z.eqb_spec a b)
  | |- context [if (Z.eqb ?a ?b) && (Z.ltb ?c ?d) then _ else _] =>
      destruct (Z.eqb_spec a b), (Z.ltb_spec0 c d); cbn [andb]
  | |- context [if ?b then _ else _] => destruct b eqn:?
  end.

Ltac flat :=
  repeat match goal with
  | H : _ /\ _ |- _ => destruct H
  | H : ?c = true |- _ => first [rewrite H in * | rewrite <- H in *]; clear H
  | H : ?c = false |- _ => first [rewrite H in * | rewrite <- H in *]; clear H
  | H : False |- _ => destruct H
  end.

Ltac fin :=
  first [lia | discriminate
        | repeat split;
          first [reflexivity | assumption | lia
                | intros; subst; first [reflexivity | lia]]].

(** * Indexing lemmas *)

Lemma py_index_valid len i :
  0 <= i < len -> py_index len i = Some (Z.to_nat i).
Proof.
  intros H. unfold py_index.
  destruct (Z.leb_spec 0 i), (Z.ltb_spec i len); simpl; try lia; reflexivity.
Qed.

Lemma py_index_negative len i :
  - len <= i < 0 -> py_index len i = Some (Z.to_nat (len + i)).
Proof.
  intros H. unfold py_index.
  destruct (Z.leb_spec 0 i), (Z.ltb_spec i len), (Z.leb_spec (- len) i),
    (Z.ltb_spec i 0); simpl; try lia; reflexivity.
Qed.

Lemma py_index_outside len i :
  i < - len \/ len <= i -> 0 <= len -> py_index len i = None.
Proof.
  intros H Hl. unfold py_index.
  destruct (Z.leb_spec 0 i), (Z.ltb_spec i len), (Z.leb_spec (- len) i),
    (Z.ltb_spec i 0); simpl; try lia; reflexivity.
Qed.

Lemma py_index_lt len i k : py_index len i = Some k -> (Z.of_nat k < len).
Proof.
  unfold py_index.
  destruct (Z.leb_spec 0 i), (Z.ltb_spec i len), (Z.leb_spec (- len) i),
    (Z.ltb_spec i 0); simpl; intros [= <-]; lia.
Qed.

Lemma getitem_valid {A} (l : list A) i :
  0 <= i < Z.of_nat (length l) ->
  exists x, l !! Z.to_nat i = Some x /\ getitem l i = Ok x.
Proof.
  intros H. unfold getitem. rewrite py_index_valid by exact H.
  destruct (lookup_lt_is_Some_2 l (Z.to_nat i)) as [x Hx]; [lia|].
  exists x. rewrite Hx. auto.
Qed.

Lemma getitem_lookup {A} (l : list A) i x :
  0 <= i -> l !! Z.to_nat i = Some x -> getitem l i = Ok x.
Proof.
  intros Hi Hx. unfold getitem.
  pose proof (lookup_lt_Some _ _ _ Hx) as Hlt.
  rewrite py_index_valid by lia. rewrite Hx. reflexivity.
Qed.

Lemma setitem_valid {A} (l : list A) i x :
  0 <= i < Z.of_nat (length l) -> setitem l i x = Ok (<[Z.to_nat i:=x]> l).
Proof. intros H. unfold setitem. rewrite py_index_valid by exact H. reflexivity. Qed.

Lemma getitem_outside {A} (l : list A) i :
  i < - Z.of_nat (length l) \/ Z.of_nat (length l) <= i ->
  getitem l i = Raise IndexError.
Proof. intros H. unfold getitem. rewrite py_index_outside by lia. reflexivity. Qed.

Lemma setitem_outside {A} (l : list A) i x :
  i < - Z.of_nat (length l) \/ Z.of_nat (length l) <= i ->
  setitem l i x = Raise IndexError.
Proof. intros H. unfold setitem. rewrite py_index_outside by lia. reflexivity. Qed.

Lemma setitem_negative {A} (l : list A) i x :
  - Z.of_nat (length l) <= i < 0 ->
  setitem l i x = setitem l (Z.of_nat (length l) + i) x.
Proof.
  intros H. unfold setitem.
  rewrite py_index_negative by exact H. rewrite py_index_valid by lia.
  reflexivity.
Qed.

Lemma getitem_negative {A} (l : list A) i :
  - Z.of_nat (length l) <= i < 0 ->
  getitem l i = getitem l (Z.of_nat (length l) + i).
Proof.
  intros H. unfold getitem.
  rewrite py_index_negative by exact H. rewrite py_index_valid by lia.
  reflexivity.
Qed.

Lemma wf_init np : 0 <= np -> wf (init np).
Proof.
  intros H. unfold wf, init; simpl. rewrite !length_replicate. lia.
Qed.

(** * The constructor *)

(** C6. For every positive [n_processes] the constructor records
    [n_processes] in [self.n] and allocates exactly [n_processes] slots in
    each list, and every slot reads [choosing = False] and [number = 0]. *)
Theorem init_registry (np : Z) :
  0 < np ->
  n (init np) = np /\
  Z.of_nat (length (choosing (init np))) = np /\
  Z.of_nat (length (number (init np))) = np /\
  (forall k x, choosing (init np) !! k = Some x -> x = false) /\
  (forall k x, number (init np) !! k = Some x -> x = 0) /\
  (forall i, 0 <= i < np ->
     getitem (choosing (init np)) i = Ok false /\
     getitem (number (init np)) i = Ok 0).
Proof.
  intros Hnp. unfold init; simpl. rewrite !length_replicate.
  repeat split; try lia.
  - intros k x Hk. apply lookup_replicate in Hk. tauto.
  - intros k x Hk. apply lookup_replicate in Hk. tauto.
  - apply getitem_lookup; [lia|]. apply lookup_replicate. split; [reflexivity|lia].
  - apply getitem_lookup; [lia|]. apply lookup_replicate. split; [reflexivity|lia].
Qed.

Lemma init_registry_witness :
  n (init 3) = 3 /\
  getitem (choosing (init 3)) 2 = Ok false /\ getitem (number (init 3)) 2 = Ok 0.
Proof.
  destruct (init_registry 3 ltac:(lia)) as (Hn & _ & _ & _ & _ & Hget).
  split; [exact Hn|]. apply Hget. lia.
Defined.

(** * Reading and writing slots of a well-formed registry *)

Lemma num_getitem s i :
  0 <= i < Z.of_nat (length (number s)) -> getitem (number s) i = Ok (num s i).
Proof.
  intros H. destruct (getitem_valid (number s) i H) as (x & Hx & ->).
  unfold num. rewrite Hx. reflexivity.
Qed.

Lemma chs_getitem s i :
  0 <= i < Z.of_nat (length (choosing s)) ->
  getitem (choosing s) i = Ok (chs s i).
Proof.
  intros H. destruct (getitem_valid (choosing s) i H) as (x & Hx & ->).
  unfold chs. rewrite Hx. reflexivity.
Qed.

Lemma num_set_number s p v q :
  0 <= p < Z.of_nat (length (number s)) -> 0 <= q ->
  num (set_number s (<[Z.to_nat p:=v]> (number s))) q
  = if q =? p then v else num s q.
Proof.
  intros Hp Hq. unfold num, set_number; simpl.
  destruct (Z.eqb_spec q p) as [->|Hne].
  - rewrite list_lookup_insert_eq by lia. reflexivity.
  - rewrite list_lookup_insert_ne by lia. reflexivity.
Qed.

Lemma chs_set_choosing s p c q :
  0 <= p < Z.of_nat (length (choosing s)) -> 0 <= q ->
  chs (set_choosing s (<[Z.to_nat p:=c]> (choosing s))) q
  = if q =? p then c else chs s q.
Proof.
  intros Hp Hq. unfold chs, set_choosing; simpl.
  destruct (Z.eqb_spec q p) as [->|Hne].
  - rewrite list_lookup_insert_eq by lia. reflexivity.
  - rewrite list_lookup_insert_ne by lia. reflexivity.
Qed.

Lemma wf_set_number s k v : wf s -> wf (set_number s (<[k:=v]> (number s))).
Proof. unfold wf, set_number; simpl. rewrite length_insert. tauto. Qed.

Lemma wf_set_choosing s k c : wf s -> wf (set_choosing s (<[k:=c]> (choosing s))).
Proof. unfold wf, set_choosing; simpl. rewrite length_insert. tauto. Qed.

(** * [step] through the eyes of the other threads *)

Lemma step_view np p s l :
  wf s -> n s = np -> 0 <= p < np ->
  loc_inv np p (num s p) (chs s p) l ->
  exists s',
    step p s l = (s', snd (tstep np p (num s) (chs s) l)) /\
    wf s' /\ n s' = np /\
    (forall q, 0 <= q ->
       num s' q = if q =? p then fst (fst (tstep np p (num s) (chs s) l))
                  else num s q) /\
    (forall q, 0 <= q ->
       chs s' q = if q =? p then snd (fst (tstep np p (num s) (chs s) l))
                  else chs s q).
Proof.
  intros Hwf Hn Hp Hl. pose proof Hwf as (Hn0 & Hlc & Hln).
  destruct l as [|k m| m| |j|j|j|j a|j|j a| |e]; cbn [step tstep];
    unfold loop_from; cbn in Hl.
  - rewrite setitem_valid by lia. eexists; split; [reflexivity|].
    split; [apply wf_set_choosing; exact Hwf|]. split; [exact Hn|]. split.
    + intros q Hq. cbn. destruct (Z.eqb_spec q p) as [->|]; reflexivity.
    + intros q Hq. cbn [fst snd]. apply chs_set_choosing; lia.
  - rewrite Hln, Hn.
    destruct (Z.ltb_spec0 k np) as [Hk|Hk].
    + rewrite num_getitem by lia. cbn [snd fst]. same_registry.
    + destruct m as [w|]; [|lia]. cbn [snd fst]. same_registry.
  - rewrite setitem_valid by lia. eexists; split; [reflexivity|].
    split; [apply wf_set_number; exact Hwf|]. split; [exact Hn|]. split.
    + intros q Hq. cbn [fst snd]. apply num_set_number; lia.
    + intros q Hq. cbn. destruct (Z.eqb_spec q p) as [->|]; reflexivity.
  - rewrite setitem_valid by lia. rewrite Hn. eexists; split; [reflexivity|].
    split; [apply wf_set_choosing; exact Hwf|]. split; [exact Hn|]. split.
    + intros q Hq. cbn. destruct (Z.eqb_spec q p) as [->|]; reflexivity.
    + intros q Hq. cbn [fst snd]. apply chs_set_choosing; lia.
  - rewrite chs_getitem by lia. cbn [snd fst].
    destruct (chs s j); same_registry.
  - rewrite num_getitem by lia. rewrite Hn. cbn [snd fst]. same_registry.
  - rewrite num_getitem by lia. cbn [snd fst]. same_registry.
  - rewrite num_getitem by lia. cbn [snd fst]. same_registry.
  - rewrite num_getitem by lia. cbn [snd fst]. same_registry.
  - rewrite num_getitem by lia. rewrite Hn. cbn [snd fst]. same_registry.
  - unfold unlock. rewrite setitem_valid by lia. eexists; split; [reflexivity|].
    split; [apply wf_set_number; exact Hwf|]. split; [exact Hn|]. split.
    + intros q Hq. cbn [fst snd]. apply num_set_number; lia.
    + intros q Hq. cbn. destruct (Z.eqb_spec q p) as [->|]; reflexivity.
  - destruct Hl.
Qed.

(** * The invariant is kept by every step of every thread *)

Lemma loc_inv_nonneg np p v c l : loc_inv np p v c l -> 0 <= v.
Proof. destruct l; cbn; try lia. Qed.

Lemma loc_step np p rdn rdc l :
  0 <= p < np -> (forall k, 0 <= rdn k) ->
  loc_inv np p (rdn p) (rdc p) l ->
  let '(v', c', l') := tstep np p rdn rdc l in loc_inv np p v' c' l'.
Proof.
  intros Hp Hn H.
  destruct l as [|k [w|]| | | | | | | | | |]; cbn in H; flat; cbn [tstep keep_max];
    brk; cbn; try pose proof (Hn k); fin.
Qed.

(** One step of thread [p] keeps both directions of the pairwise invariant
    with any other thread [j], whatever slot the step reads. *)
Lemma pair_step np p j rdn rdc lp lj :
  0 <= p < np -> 0 <= j < np -> p <> j -> (forall k, 0 <= rdn k) ->
  loc_inv np p (rdn p) (rdc p) lp -> loc_inv np j (rdn j) (rdc j) lj ->
  pair_inv (rdn p) p lp (rdn j) j lj -> pair_inv (rdn j) j lj (rdn p) p lp ->
  let '(v', c', l') := tstep np p rdn rdc lp in
  pair_inv v' p l' (rdn j) j lj /\ pair_inv (rdn j) j lj v' p l'.
Proof.
  intros Hp Hj Hne Hn Up Uj Ppj Pjp.
  destruct lp as [|k [w|]| | |k|k|k|k a|k|k a| |];
    destruct lj as [|k' [w'|]| | | | | | | | | |]; cbn in Up, Uj; flat;
    repeat match goal with H : _ = _ -> _ = _ |- _ => clear H end;
    unfold pair_inv in *; cbn [tstep keep_max];
    try (destruct (Z.eq_dec k j) as [->|]); flat;
    brk; try pose proof (Hn k); unfold before in *; cbn in *;
    unfold prec in *; lia.
Qed.

Lemma inv_boot np : 0 <= np -> inv np (boot np).
Proof.
  intros Hnp. unfold inv, boot; cbn [mem pcs].
  split; [apply wf_init; exact Hnp|]. split; [reflexivity|].
  assert (Hnum : forall i, num (init np) i = 0).
  { intros i. unfold num, init; cbn.
    destruct (replicate (Z.to_nat np) 0 !! Z.to_nat i) as [x|] eqn:E;
      [|reflexivity].
    apply lookup_replicate in E. cbn. tauto. }
  assert (Hchs : forall i, chs (init np) i = false).
  { intros i. unfold chs, init; cbn.
    destruct (replicate (Z.to_nat np) false !! Z.to_nat i) as [x|] eqn:E;
      [|reflexivity].
    apply lookup_replicate in E. cbn. tauto. }
  split.
  - intros i Hi. rewrite Hnum, Hchs. cbn. auto.
  - intros i j Hi Hj Hij. rewrite !Hnum. unfold pair_inv, before; cbn.
    repeat split; try tauto; lia.
Qed.

Lemma inv_num_nonneg np st : inv np st -> forall k, 0 <= num (mem st) k.
Proof.
  intros (Hwf & Hn & Hloc & _) k.
  destruct (Z.lt_ge_cases (Z.of_nat (Z.to_nat k)) np) as [Hlt|Hge].
  - specialize (Hloc (Z.of_nat (Z.to_nat k)) ltac:(lia)).
    apply loc_inv_nonneg in Hloc. unfold num in *.
    rewrite Nat2Z.id in Hloc. exact Hloc.
  - unfold num. destruct Hwf as (_ & _ & Hlen).
    rewrite lookup_ge_None_2 by lia. cbn. lia.
Qed.

Lemma inv_sched np st p : inv np st -> 0 <= p < np -> inv np (sched st p).
Proof.
  intros Hinv Hp. pose proof (inv_num_nonneg np st Hinv) as Hnn.
  destruct Hinv as (Hwf & Hn & Hloc & Hpair).
  destruct (step_view np p (mem st) (pcs st p) Hwf Hn Hp (Hloc p Hp))
    as (s' & Hstep & Hwf' & Hn' & Hnum & Hchs).
  pose proof (loc_step np p (num (mem st)) (chs (mem st)) (pcs st p)
                Hp Hnn (Hloc p Hp)) as Hl.
  assert (Hps : forall j, 0 <= j < np -> p <> j ->
            let '(v', c', l') :=
              tstep np p (num (mem st)) (chs (mem st)) (pcs st p) in
            pair_inv v' p l' (num (mem st) j) j (pcs st j) /\
            pair_inv (num (mem st) j) j (pcs st j) v' p l').
  { intros j Hj Hne. apply (pair_step np p j); auto. }
  unfold sched. rewrite Hstep.
  destruct (tstep np p (num (mem st)) (chs (mem st)) (pcs st p))
    as [[v' c'] l'].
  cbn [fst snd] in *. unfold inv, upd. cbn [mem pcs].
  split; [exact Hwf'|]. split; [exact Hn'|]. split.
  - intros i Hi. rewrite Hnum, Hchs by lia.
    destruct (Z.eqb_spec i p) as [->|Hne]; [exact Hl|apply Hloc; exact Hi].
  - intros i j Hi Hj Hij. rewrite !Hnum by lia.
    destruct (Z.eqb_spec i p) as [->|Hi'], (Z.eqb_spec j p) as [->|Hj'].
    + congruence.
    + apply (Hps j Hj Hij).
    + apply (Hps i Hi). congruence.
    + apply Hpair; assumption.
Qed.

Lemma reachable_inv np st : 0 <= np -> reachable np st -> inv np st.
Proof.
  intros Hnp. induction 1 as [|st p Hr IH Hp].
  - apply inv_boot; exact Hnp.
  - apply inv_sched; assumption.
Qed.

Lemma reachable_fold np ps st :
  reachable np st -> Forall (fun p => 0 <= p < np) ps ->
  reachable np (fold_left sched ps st).
Proof.
  intros Hr Hps. revert st Hr.
  induction Hps as [|p ps Hp _ IH]; intros st Hr; cbn.
  - exact Hr.
  - apply IH. apply reach_sched; assumption.
Qed.

Lemma reachable_run_schedule np ps :
  forallb (fun p => (0 <=? p) && (p <? np)) ps = true ->
  reachable np (run_schedule np ps).
Proof.
  intros H. apply reachable_fold; [apply reach_boot|].
  apply Forall_forall. intros p Hin.
  rewrite forallb_forall in H. apply list_elem_of_In in Hin.
  specialize (H p Hin). lia.
Qed.

(** * Mutual exclusion *)

(** C1. Mutual exclusion.  In every state that N threads, each running the
    cycle [lock(i)]; critical section; [unlock(i)] for its own identity [i],
    can reach by any interleaving of their single reads and writes of the
    registry, two distinct threads are never both between the return of
    their [lock] and their [unlock]. *)
Theorem mutual_exclusion (np : Z) (st : System) (i j : Z) :
  reachable np st -> 0 <= i < np -> 0 <= j < np -> i <> j ->
  ~ (pcs st i = CS /\ pcs st j = CS).
Proof.
  intros Hr Hi Hj Hij [Hci Hcj].
  destruct (reachable_inv np st ltac:(lia) Hr) as (_ & _ & _ & Hpair).
  destruct (Hpair i j Hi Hj Hij) as (Hpass & _).
  rewrite Hci, Hcj in Hpass. cbn in Hpass.
  destruct (Hpass I) as [_ []].
Qed.

Lemma mutual_exclusion_witness :
  pcs (run_schedule 2 tie_schedule) 0 = CS /\
  ~ (pcs (run_schedule 2 tie_schedule) 0 = CS /\
     pcs (run_schedule 2 tie_schedule) 1 = CS).
Proof.
  split; [vm_compute; reflexivity|].
  apply (mutual_exclusion 2 (run_schedule 2 tie_schedule) 0 1).
  - apply reachable_run_schedule. vm_compute. reflexivity.
  - lia.
  - lia.
  - lia.
Defined.

(** * A thread at its own index *)

Lemma sched_own np st i :
  inv np st -> 0 <= i < np ->
  pcs (sched st i) i
  = snd (tstep np i (num (mem st)) (chs (mem st)) (pcs st i)).
Proof.
  intros (Hwf & Hn & Hloc & _) Hi.
  destruct (step_view np i (mem st) (pcs st i) Hwf Hn Hi (Hloc i Hi))
    as (s' & Hstep & _).
  unfold sched. rewrite Hstep. cbn [pcs]. unfold upd.
  rewrite Z.eqb_refl. reflexivity.
Qed.

(** X9.  In every reachable state a thread inside the iteration [j = i] of its own
    [for] loop moves on at each of its steps, whatever the other threads do
    in between: neither [while] sends it round. *)
Lemma own_iteration_progress np st i :
  reachable np st -> 0 <= i < np ->
  match pcs st i with
  | WaitCh j => j = i -> pcs (sched st i) i = WaitNZ i
  | WaitNZ j => j = i -> pcs (sched st i) i = LtA i
  | LtA j => j = i -> pcs (sched st i) i = LtB i (num (mem st) i)
  | LtB j _ => j = i -> pcs (sched st i) i = EqA i
  | EqA j => j = i -> pcs (sched st i) i = EqB i (num (mem st) i)
  | EqB j _ => j = i -> pcs (sched st i) i = loop_from (mem st) (i + 1)
  | _ => True
  end.
Proof.
  intros Hr Hi. pose proof (reachable_inv np st ltac:(lia) Hr) as Hinv.
  rewrite (sched_own np st i Hinv Hi).
  destruct Hinv as (_ & Hn & Hloc & _). specialize (Hloc i Hi).
  unfold loop_from. rewrite Hn.
  destruct (pcs st i) as [| | | |j|j|j|j a|j|j a| |]; try exact I;
    intros ->; cbn in Hloc; cbn [tstep snd].
  - destruct Hloc as (_ & -> & _). reflexivity.
  - destruct (Z.eqb_spec (num (mem st) i) 0); [lia|reflexivity].
  - reflexivity.
  - destruct Hloc as (_ & _ & _ & Ha). rewrite (Ha eq_refl).
    rewrite Z.ltb_irrefl. reflexivity.
  - reflexivity.
  - rewrite Z.ltb_irrefl, andb_false_r. reflexivity.
Qed.

(** * One thread running [lock] on its own *)

Lemma run_CS fuel pid s : run fuel pid s CS = (s, CS).
Proof. destruct fuel; reflexivity. Qed.

Lemma run_more fuel pid s l s' :
  run fuel pid s l = (s', CS) ->
  forall extra, run (fuel + extra) pid s l = (s', CS).
Proof.
  revert s l. induction fuel as [|f IH]; intros s l H extra.
  - cbn in H. injection H as -> ->. apply run_CS.
  - cbn [Nat.add]. cbn [run] in *.
    destruct l; try exact H;
      destruct (step pid s _) as [s1 l1]; apply IH; exact H.
Qed.

Lemma keep_max_ge m v : v <= keep_max m v.
Proof. destruct m as [w|]; cbn; [destruct (Z.ltb_spec w v)|]; lia. Qed.

Lemma keep_max_ge_old w v : w <= keep_max (Some w) v.
Proof. cbn. destruct (Z.ltb_spec w v); lia. Qed.

Lemma keep_max_cases m v : keep_max m v = v \/ m = Some (keep_max m v).
Proof. destruct m as [w|]; cbn; [destruct (Z.ltb_spec w v)|]; auto. Qed.

Lemma max_from_spec l : forall m,
  l <> [] \/ m <> None ->
  exists t, max_from m l = Some t /\
            (forall x, x ∈ l -> x <= t) /\
            (forall w, m = Some w -> w <= t) /\
            (t ∈ l \/ m = Some t).
Proof.
  induction l as [|v l IH]; intros m Hne.
  - destruct m as [w|]; [|destruct Hne; congruence].
    exists w. cbn. repeat split; auto.
    + intros x Hx. inversion Hx.
    + intros w' [= ->]. lia.
  - destruct (IH (Some (keep_max m v)) ltac:(right; discriminate))
      as (t & Ht & Hall & Hold & Hin).
    exists t. cbn [max_from]. split; [exact Ht|].
    pose proof (Hold _ eq_refl) as Hk.
    pose proof (keep_max_ge m v) as Hv.
    repeat split.
    + intros x Hx. apply elem_of_cons in Hx as [->|Hx]; [lia|auto].
    + intros w ->. pose proof (keep_max_ge_old w v). lia.
    + destruct Hin as [Hin|[= Hin]].
      * left. apply elem_of_cons. auto.
      * destruct (keep_max_cases m v) as [E|E].
        -- left. apply elem_of_cons. left. congruence.
        -- right. congruence.
Qed.

Lemma py_max_spec l :
  l <> [] ->
  exists t, py_max l = Ok t /\ t ∈ l /\ forall x, x ∈ l -> x <= t.
Proof.
  intros Hl. destruct (max_from_spec l None (or_introl Hl))
    as (t & Ht & Hall & _ & [Hin|Hin]); [|discriminate].
  exists t. unfold py_max. rewrite Ht. auto.
Qed.

(** The loop inside [max]: [suf] is what is left to read. *)
Lemma run_max_loop pid s suf : forall pre m r,
  number s = pre ++ suf ->
  run (length suf + r) pid s (MaxRead (Z.of_nat (length pre)) m)
  = run r pid s (MaxRead (Z.of_nat (length (number s))) (max_from m suf)).
Proof.
  induction suf as [|v suf IH]; intros pre m r Hs.
  - cbn. rewrite Hs, app_nil_r. reflexivity.
  - cbn [length Nat.add run step max_from].
    assert (Hlt : Z.of_nat (length pre) < Z.of_nat (length (number s))).
    { rewrite Hs, length_app. cbn. lia. }
    destruct (Z.ltb_spec (Z.of_nat (length pre)) (Z.of_nat (length (number s))));
      [|lia].
    rewrite (getitem_lookup (number s) _ v);
      [|lia|rewrite Nat2Z.id, Hs; apply list_lookup_middle; reflexivity].
    replace (Z.of_nat (length pre) + 1) with (Z.of_nat (length (pre ++ [v])))
      by (rewrite length_app; cbn; lia).
    apply IH. rewrite Hs, <- app_assoc. reflexivity.
Qed.

(** [run] unfolded by one step at each control point, on slots that exist. *)
Lemma run_Idle f pid s :
  0 <= pid < Z.of_nat (length (choosing s)) ->
  run (S f) pid s Idle
  = run f pid (set_choosing s (<[Z.to_nat pid:=true]> (choosing s)))
        (MaxRead 0 None).
Proof. intros H. cbn [run step]. rewrite setitem_valid by exact H. reflexivity. Qed.

Lemma run_MaxRead_end f pid s k w :
  Z.of_nat (length (number s)) <= k ->
  run (S f) pid s (MaxRead k (Some w)) = run f pid s (Store w).
Proof.
  intros H. cbn [run step].
  destruct (Z.ltb_spec k (Z.of_nat (length (number s)))); [lia|reflexivity].
Qed.

Lemma run_Store f pid s m :
  0 <= pid < Z.of_nat (length (number s)) ->
  run (S f) pid s (Store m)
  = run f pid (set_number s (<[Z.to_nat pid:=m + 1]> (number s))) ClearCh.
Proof. intros H. cbn [run step]. rewrite setitem_valid by exact H. reflexivity. Qed.

Lemma run_ClearCh f pid s :
  0 <= pid < Z.of_nat (length (choosing s)) ->
  run (S f) pid s ClearCh
  = run f pid (set_choosing s (<[Z.to_nat pid:=false]> (choosing s)))
        (loop_from s 0).
Proof. intros H. cbn [run step]. rewrite setitem_valid by exact H. reflexivity. Qed.

Lemma run_WaitCh f pid s j :
  0 <= j < Z.of_nat (length (choosing s)) ->
  run (S f) pid s (WaitCh j)
  = run f pid s (if chs s j then WaitCh j else WaitNZ j).
Proof.
  intros H. cbn [run step]. rewrite chs_getitem by exact H.
  destruct (chs s j); reflexivity.
Qed.

Lemma run_WaitNZ f pid s j :
  0 <= j < Z.of_nat (length (number s)) ->
  run (S f) pid s (WaitNZ j)
  = run f pid s (if num s j =? 0 then loop_from s (j + 1) else LtA j).
Proof. intros H. cbn [run step]. rewrite num_getitem by exact H. reflexivity. Qed.

Lemma run_LtA f pid s j :
  0 <= j < Z.of_nat (length (number s)) ->
  run (S f) pid s (LtA j) = run f pid s (LtB j (num s j)).
Proof. intros H. cbn [run step]. rewrite num_getitem by exact H. reflexivity. Qed.

Lemma run_LtB f pid s j a :
  0 <= pid < Z.of_nat (length (number s)) ->
  run (S f) pid s (LtB j a)
  = run f pid s (if a <? num s pid then WaitNZ j else EqA j).
Proof. intros H. cbn [run step]. rewrite num_getitem by exact H. reflexivity. Qed.

Lemma run_EqA f pid s j :
  0 <= j < Z.of_nat (length (number s)) ->
  run (S f) pid s (EqA j) = run f pid s (EqB j (num s j)).
Proof. intros H. cbn [run step]. rewrite num_getitem by exact H. reflexivity. Qed.

Lemma run_EqB f pid s j a :
  0 <= pid < Z.of_nat (length (number s)) ->
  run (S f) pid s (EqB j a)
  = run f pid s (if (a =? num s pid) && (j <? pid) then WaitNZ j
                 else loop_from s (j + 1)).
Proof. intros H. cbn [run step]. rewrite num_getitem by exact H. reflexivity. Qed.

(** The registry and control point at which [lock(pid)] enters its [for]
    loop, when it ran lines 13 to 19 undisturbed and drew [t + 1]. *)
Lemma run_doorway pid s :
  wf s -> 0 <= pid < n s ->
  exists t,
    py_max (number s) = Ok t /\ t ∈ number s /\
    (forall x, x ∈ number s -> x <= t) /\
    forall r,
      lock (length (number s) + 4 + r) pid s
      = run r pid (mkBakeryLock (n s)
                     (<[Z.to_nat pid:=false]> (choosing s))
                     (<[Z.to_nat pid:=t + 1]> (number s)))
            (WaitCh 0).
Proof.
  intros (Hn0 & Hlc & Hln) Hp.
  assert (Hne : number s <> []).
  { intros E. rewrite E in Hln. cbn in Hln. lia. }
  destruct (max_from_spec (number s) None (or_introl Hne))
    as (t & Ht & Hall & _ & [Hin|Hin]); [|discriminate].
  exists t. unfold py_max. rewrite Ht. repeat split; auto.
  intros r. unfold lock.
  replace (length (number s) + 4 + r)%nat
    with (S (length (number s) + (S (S (S r)))))%nat by lia.
  rewrite run_Idle by lia.
  rewrite (run_max_loop pid _ (number s) [] None) by reflexivity.
  cbn [set_choosing number]. rewrite Ht.
  rewrite run_MaxRead_end by (cbn; lia).
  rewrite run_Store by (cbn; lia).
  rewrite run_ClearCh by (cbn; rewrite length_insert; lia).
  unfold set_choosing, set_number, loop_from. cbn [n number choosing].
  rewrite list_insert_insert_eq.
  destruct (Z.ltb_spec 0 (n s)); [reflexivity|lia].
Qed.

Lemma pc_halted l :
  (match l with CS | Raised _ => True | _ => False end) \/
  (l <> CS /\ forall e, l <> Raised e).
Proof. destruct l; auto; right; split; congruence. Qed.

Lemma in_loop_from s j : in_loop (loop_from s j).
Proof. unfold loop_from. destruct (j <? n s); exact I. Qed.

(** Lines 22 to 32 only read: whatever the slots hold, a step taken inside
    the [for] loop leaves the registry as it is and stays in the loop. *)
Lemma step_in_loop pid s l :
  in_loop l -> l <> CS ->
  fst (step pid s l) = s /\ in_loop (snd (step pid s l)).
Proof.
  intros Hl Hcs. destruct l; cbn in Hl; try destruct Hl; try congruence;
    cbn [step];
    repeat match goal with
    | |- context [match getitem ?l ?i with _ => _ end] =>
        destruct (getitem l i) as [[]|]
    | |- context [if ?b then _ else _] => destruct b
    end; cbn; auto using in_loop_from.
Qed.

Lemma run_S f pid s l :
  l <> CS -> (forall e, l <> Raised e) ->
  run (S f) pid s l = run f pid (fst (step pid s l)) (snd (step pid s l)).
Proof.
  intros Hcs Hr. destruct l; try congruence;
    try (exfalso; eapply Hr; reflexivity);
    cbn [run]; destruct (step pid s _); reflexivity.
Qed.

Lemma run_in_loop fuel pid : forall s l,
  in_loop l -> fst (run fuel pid s l) = s /\ in_loop (snd (run fuel pid s l)).
Proof.
  induction fuel as [|f IH]; intros s l Hl; [cbn; auto|].
  destruct (pc_halted l) as [Hh|[Hcs Hr]].
  - destruct l; cbn in Hh; try destruct Hh; cbn; auto.
  - rewrite run_S by assumption.
    destruct (step_in_loop pid s l Hl Hcs) as [Hs Hl'].
    rewrite Hs. apply IH. exact Hl'.
Qed.

(** ** The second [while], lines 28 to 32 *)

Lemma blocks_iff vj vp j pid :
  blocks vj vp j pid = true <->
  vj <> 0 /\ (vj < vp \/ (vj = vp /\ j < pid)).
Proof.
  unfold blocks.
  destruct (Z.eqb_spec vj 0), (Z.ltb_spec vj vp), (Z.eqb_spec vj vp),
    (Z.ltb_spec j pid); cbn; split; intros; try discriminate; try lia; auto.
Qed.

(** One evaluation of the condition on an unchanging registry. *)
Lemma run_condition pid s j :
  0 <= pid < Z.of_nat (length (number s)) ->
  0 <= j < Z.of_nat (length (number s)) ->
  exists k, (1 <= k <= 5)%nat /\
    forall r,
      run (k + r) pid s (WaitNZ j)
      = run r pid s (if blocks (num s j) (num s pid) j pid then WaitNZ j
                     else loop_from s (j + 1)).
Proof.
  intros Hp Hj. unfold blocks.
  destruct (Z.eqb_spec (num s j) 0) as [E0|E0].
  { exists 1%nat. split; [lia|]. intros r. cbn [Nat.add].
    rewrite run_WaitNZ by exact Hj.
    destruct (Z.eqb_spec (num s j) 0); [reflexivity|lia]. }
  destruct (Z.ltb_spec (num s j) (num s pid)) as [Hlt|Hge].
  { exists 3%nat. split; [lia|]. intros r. cbn [Nat.add].
    rewrite run_WaitNZ by exact Hj.
    destruct (Z.eqb_spec (num s j) 0); [lia|].
    rewrite run_LtA by exact Hj. rewrite run_LtB by exact Hp.
    destruct (Z.ltb_spec (num s j) (num s pid)); [reflexivity|lia]. }
  exists 5%nat. split; [lia|]. intros r. cbn [Nat.add].
  rewrite run_WaitNZ by exact Hj.
  destruct (Z.eqb_spec (num s j) 0); [lia|].
  rewrite run_LtA by exact Hj. rewrite run_LtB by exact Hp.
  destruct (Z.ltb_spec (num s j) (num s pid)); [lia|].
  rewrite run_EqA by exact Hj. rewrite run_EqB by exact Hp.
  reflexivity.
Qed.

(** While the condition holds the thread never leaves iteration [j]. *)
Lemma run_blocked pid s j :
  0 <= pid < Z.of_nat (length (number s)) ->
  0 <= j < Z.of_nat (length (number s)) ->
  blocks (num s j) (num s pid) j pid = true ->
  forall fuel l,
    l = WaitNZ j \/ l = LtA j \/ l = LtB j (num s j) \/
    (~ num s j < num s pid /\ (l = EqA j \/ l = EqB j (num s j))) ->
    fst (run fuel pid s l) = s /\ checking (snd (run fuel pid s l)) j.
Proof.
  intros Hp Hj Hb. apply blocks_iff in Hb as [Hnz Hb].
  induction fuel as [|f IH]; intros l Hl.
  - cbn. split; [reflexivity|].
    destruct Hl as [->|[->|[->|[_ [->| ->]]]]]; reflexivity.
  - destruct Hl as [->|[->|[->|[Hge [->| ->]]]]].
    + rewrite run_WaitNZ by exact Hj.
      destruct (Z.eqb_spec (num s j) 0); [lia|]. apply IH. auto.
    + rewrite run_LtA by exact Hj. apply IH. auto.
    + rewrite run_LtB by exact Hp.
      destruct (Z.ltb_spec (num s j) (num s pid)); apply IH; auto.
      right; right; right. split; [lia|auto].
    + rewrite run_EqA by exact Hj. apply IH. auto 6.
    + rewrite run_EqB by exact Hp.
      destruct (Z.eqb_spec (num s j) (num s pid)); [|lia].
      destruct (Z.ltb_spec j pid); [|lia]. cbn. apply IH. auto.
Qed.

(** One whole iteration of the [for] loop that finds nothing to wait for. *)
Lemma run_iteration pid s j :
  0 <= pid < Z.of_nat (length (number s)) ->
  0 <= j < Z.of_nat (length (number s)) ->
  0 <= j < Z.of_nat (length (choosing s)) ->
  chs s j = false ->
  blocks (num s j) (num s pid) j pid = false ->
  exists k, (1 <= k <= 6)%nat /\
    forall r, run (k + r) pid s (WaitCh j) = run r pid s (loop_from s (j + 1)).
Proof.
  intros Hp Hj Hjc Hc Hb.
  destruct (run_condition pid s j Hp Hj) as (k & Hk & Hrun).
  exists (S k). split; [lia|]. intros r. cbn [Nat.add].
  rewrite run_WaitCh by exact Hjc. rewrite Hc, Hrun, Hb. reflexivity.
Qed.

Lemma blocks_self v pid : blocks v v pid pid = false.
Proof.
  unfold blocks. rewrite Z.ltb_irrefl, (Z.ltb_irrefl pid), andb_false_r.
  cbn. apply andb_false_r.
Qed.

(** The whole [for] loop from [j] on, when no iteration has to wait. *)
Lemma run_loop pid s :
  wf s -> 0 <= pid < n s ->
  (forall j, 0 <= j < n s ->
     chs s j = false /\ blocks (num s j) (num s pid) j pid = false) ->
  forall d j, 0 <= j -> j + Z.of_nat d = n s ->
    run (6 * d) pid s (loop_from s j) = (s, CS).
Proof.
  intros (Hn0 & Hlc & Hln) Hp Hall.
  induction d as [|d IH]; intros j Hj0 Hj.
  - unfold loop_from. destruct (Z.ltb_spec j (n s)); [lia|reflexivity].
  - unfold loop_from at 1. destruct (Z.ltb_spec j (n s)); [|lia].
    destruct (Hall j ltac:(lia)) as [Hc Hb].
    destruct (run_iteration pid s j) as (k & Hk & Hrun); try lia; auto.
    replace (6 * S d)%nat with (k + (6 * d + (6 - k)))%nat by lia.
    rewrite Hrun. apply run_more. apply IH; lia.
Qed.

(** ** No step raises on a registry whose slots exist *)

Lemma getitem_ok {A} (l : list A) i :
  - Z.of_nat (length l) <= i < Z.of_nat (length l) ->
  exists x, getitem l i = Ok x.
Proof.
  intros H. destruct (Z.lt_ge_cases i 0).
  - rewrite getitem_negative by lia.
    destruct (getitem_valid l (Z.of_nat (length l) + i)) as (x & _ & Hx);
      [lia|eauto].
  - destruct (getitem_valid l i) as (x & _ & Hx); [lia|eauto].
Qed.

Lemma setitem_ok {A} (l : list A) i x :
  - Z.of_nat (length l) <= i < Z.of_nat (length l) ->
  exists k, setitem l i x = Ok (<[k:=x]> l).
Proof.
  intros H. destruct (Z.lt_ge_cases i 0).
  - rewrite setitem_negative by lia. rewrite setitem_valid by lia. eauto.
  - rewrite setitem_valid by lia. eauto.
Qed.

Lemma well_indexed_from s j : 0 <= j -> well_indexed (n s) (loop_from s j).
Proof.
  intros H. unfold loop_from. destruct (Z.ltb_spec j (n s)); cbn; lia.
Qed.

Lemma step_well_indexed pid s l :
  wf s -> - n s <= pid < n s -> well_indexed (n s) l ->
  wf (fst (step pid s l)) /\ n (fst (step pid s l)) = n s /\
  well_indexed (n s) (snd (step pid s l)).
Proof.
  intros Hwf Hp Hl. pose proof Hwf as (Hn0 & Hlc & Hln).
  destruct l as [|k m|m| |j|j|j|j a|j|j a| |e]; cbn in Hl; cbn [step].
  - destruct (setitem_ok (choosing s) pid true) as (k & ->); [lia|].
    cbn [fst snd]. split; [apply wf_set_choosing; exact Hwf|].
    split; [reflexivity|]. cbn. lia.
  - destruct (Z.ltb_spec k (Z.of_nat (length (number s)))).
    + destruct (getitem_ok (number s) k) as (v & ->); [lia|].
      cbn. repeat split; auto; try lia. discriminate.
    + destruct m; [cbn; auto|].
      destruct Hl as [_ Hl]. specialize (Hl eq_refl). lia.
  - destruct (setitem_ok (number s) pid (m + 1)) as (k & ->); [lia|].
    cbn [fst snd]. split; [apply wf_set_number; exact Hwf|].
    split; [reflexivity|exact I].
  - destruct (setitem_ok (choosing s) pid false) as (k & ->); [lia|].
    cbn [fst snd]. split; [apply wf_set_choosing; exact Hwf|].
    split; [reflexivity|]. apply well_indexed_from. lia.
  - destruct (getitem_ok (choosing s) j) as ([] & ->); [lia| |]; cbn; auto.
  - destruct (getitem_ok (number s) j) as (v & ->); [lia|]. cbn [fst snd].
    split; [exact Hwf|]. split; [reflexivity|].
    destruct (v =? 0); [apply well_indexed_from; lia|exact Hl].
  - destruct (getitem_ok (number s) j) as (v & ->); [lia|]. cbn; auto.
  - destruct (getitem_ok (number s) pid) as (v & ->); [lia|]. cbn [fst snd].
    split; [exact Hwf|]. split; [reflexivity|]. destruct (a <? v); exact Hl.
  - destruct (getitem_ok (number s) j) as (v & ->); [lia|]. cbn; auto.
  - destruct (getitem_ok (number s) pid) as (v & ->); [lia|]. cbn [fst snd].
    split; [exact Hwf|]. split; [reflexivity|].
    destruct ((a =? v) && (j <? pid)); [exact Hl|apply well_indexed_from; lia].
  - unfold unlock.
    destruct (setitem_ok (number s) pid 0) as (k & ->); [lia|].
    cbn [fst snd]. split; [apply wf_set_number; exact Hwf|].
    split; [reflexivity|exact I].
  - destruct Hl.
Qed.

Lemma run_never_raises pid fuel : forall s l,
  wf s -> - n s <= pid < n s -> well_indexed (n s) l ->
  forall e, snd (run fuel pid s l) <> Raised e.
Proof.
  induction fuel as [|f IH]; intros s l Hwf Hp Hl e.
  - cbn. intros ->. exact Hl.
  - destruct (pc_halted l) as [Hh|[Hcs Hr]].
    + destruct l; cbn in Hh; try destruct Hh; [cbn; discriminate|destruct Hl].
    + rewrite run_S by assumption.
      destruct (step_well_indexed pid s l Hwf Hp Hl) as (Hwf' & Hn' & Hl').
      apply IH; [exact Hwf'| |]; rewrite Hn'; assumption.
Qed.

Lemma wf_concrete s :
  (0 <=? n s) && (Z.of_nat (length (choosing s)) =? n s)
  && (Z.of_nat (length (number s)) =? n s) = true -> wf s.
Proof. unfold wf. intros H. lia. Qed.

(** * The draw *)

(** C2. Ticket draw.  Run undisturbed on any registry, lines 13 to 19 of
    [lock(pid)] store in [number[pid]] exactly one more than the maximum of
    all entries of [number] (the caller's own included), which is positive
    whenever no entry is negative; when the [for] loop is entered
    [choosing[pid]] reads [False], and it still does whenever [lock]
    returns, since the loop writes nothing. *)
Theorem draw_ticket (s : BakeryLock) (pid : Z) :
  wf s -> 0 <= pid < n s ->
  exists t,
    py_max (number s) = Ok t /\ t ∈ number s /\
    (forall x, x ∈ number s -> x <= t) /\
    let s' := mkBakeryLock (n s)
                (<[Z.to_nat pid:=false]> (choosing s))
                (<[Z.to_nat pid:=t + 1]> (number s)) in
    lock (length (number s) + 4) pid s = (s', WaitCh 0) /\
    getitem (number s') pid = Ok (t + 1) /\
    ((forall x, x ∈ number s -> 0 <= x) -> 0 < t + 1) /\
    getitem (choosing s') pid = Ok false /\
    forall fuel, fst (lock (length (number s) + 4 + fuel) pid s) = s'.
Proof.
  intros Hwf Hp. pose proof Hwf as (Hn0 & Hlc & Hln).
  destruct (run_doorway pid s Hwf Hp) as (t & Hmax & Hin & Hall & Hrun).
  exists t. split; [exact Hmax|]. split; [exact Hin|]. split; [exact Hall|].
  cbn zeta. split; [|split; [|split; [|split]]].
  - rewrite <- (Nat.add_0_r (length (number s) + 4)). rewrite Hrun. reflexivity.
  - cbn [number]. apply getitem_lookup; [lia|].
    apply list_lookup_insert_eq. lia.
  - intros Hpos. specialize (Hpos t Hin). lia.
  - cbn [choosing]. apply getitem_lookup; [lia|].
    apply list_lookup_insert_eq. lia.
  - intros fuel. rewrite Hrun. apply run_in_loop. exact I.
Qed.

Lemma draw_ticket_witness :
  lock 7 1 stale_registry
  = (mkBakeryLock 3 [false; false; false] [2; 6; 5], WaitCh 0).
Proof.
  destruct (draw_ticket stale_registry 1) as (t & Hmax & _ & _ & Hlock & _).
  - apply wf_concrete. reflexivity.
  - cbn. lia.
  - injection Hmax as <-. exact Hlock.
Defined.

(** * The wait condition *)

(** C3. Priority wait and tie-break.  On a registry that holds still, one
    evaluation of the condition of the second [while] for peer [j] sends
    [lock(pid)] back to the start of that condition exactly when
    [number[j] != 0 and (number[j] < number[pid] or (number[j] ==
    number[pid] and j < pid))], and on to the next peer otherwise; while the
    condition holds the thread never leaves peer [j].  With equal non-zero
    tickets the thread with the higher identity is held back by the lower
    one and the lower one is not held back by the higher. *)
Theorem wait_condition (s : BakeryLock) (pid j : Z) :
  wf s -> 0 <= pid < n s -> 0 <= j < n s ->
  getitem (number s) j = Ok (num s j) /\
  getitem (number s) pid = Ok (num s pid) /\
  (blocks (num s j) (num s pid) j pid = true <->
   num s j <> 0 /\
   (num s j < num s pid \/ (num s j = num s pid /\ j < pid))) /\
  (exists k, (1 <= k <= 5)%nat /\
     forall r,
       run (k + r) pid s (WaitNZ j)
       = run r pid s (if blocks (num s j) (num s pid) j pid then WaitNZ j
                      else loop_from s (j + 1))) /\
  (blocks (num s j) (num s pid) j pid = true ->
   forall fuel,
     fst (run fuel pid s (WaitNZ j)) = s /\
     checking (snd (run fuel pid s (WaitNZ j))) j) /\
  (num s j = num s pid -> num s j <> 0 -> j < pid ->
   blocks (num s j) (num s pid) j pid = true /\
   blocks (num s pid) (num s j) pid j = false).
Proof.
  intros (Hn0 & Hlc & Hln) Hp Hj.
  split; [apply num_getitem; lia|]. split; [apply num_getitem; lia|].
  split; [apply blocks_iff|]. split; [apply run_condition; lia|]. split.
  - intros Hb fuel. apply run_blocked; auto; lia.
  - intros He Hnz Hlt. split.
    + apply blocks_iff. lia.
    + destruct (blocks (num s pid) (num s j) pid j) eqn:E; [|reflexivity].
      apply blocks_iff in E. lia.
Qed.

Lemma wait_condition_witness :
  blocks 1 1 0 1 = true /\ blocks 1 1 1 0 = false.
Proof.
  destruct (wait_condition tie_registry 1 0) as (_ & _ & _ & _ & _ & Htie).
  - apply wf_concrete. reflexivity.
  - cbn. lia.
  - cbn. lia.
  - apply Htie; vm_compute; first [reflexivity | discriminate].
Defined.

(** * [unlock] *)

(** C4. Unlock effect and frame.  For every registry and every valid
    [pid], [unlock(pid)] succeeds in a single step, without waiting, and
    leaves [number[pid] = 0]; [self.n], every [choosing] flag and every other
    slot of [number] keep their values. *)
Theorem unlock_effect (s : BakeryLock) (pid : Z) :
  wf s -> 0 <= pid < n s ->
  exists s',
    unlock pid s = Ok s' /\
    step pid s CS = (s', Idle) /\
    getitem (number s') pid = Ok 0 /\
    n s' = n s /\ choosing s' = choosing s /\
    length (number s') = length (number s) /\
    (forall k : nat, k <> Z.to_nat pid -> number s' !! k = number s !! k) /\
    (forall j, 0 <= j < n s -> j <> pid ->
       getitem (number s') j = getitem (number s) j).
Proof.
  intros (Hn0 & Hlc & Hln) Hp.
  exists (set_number s (<[Z.to_nat pid:=0]> (number s))).
  assert (Hu : unlock pid s
               = Ok (set_number s (<[Z.to_nat pid:=0]> (number s)))).
  { unfold unlock. rewrite setitem_valid by lia. reflexivity. }
  split; [exact Hu|]. split; [cbn [step]; rewrite Hu; reflexivity|].
  cbn [set_number number n choosing]. repeat split.
  - apply getitem_lookup; [lia|]. apply list_lookup_insert_eq. lia.
  - apply length_insert.
  - intros k Hk. apply list_lookup_insert_ne. congruence.
  - intros j Hj Hne. unfold getitem. rewrite length_insert.
    rewrite py_index_valid by lia.
    rewrite list_lookup_insert_ne by lia. reflexivity.
Qed.

Lemma unlock_effect_witness :
  exists s', unlock 2 stale_registry = Ok s' /\ getitem (number s') 2 = Ok 0.
Proof.
  destruct (unlock_effect stale_registry 2) as (s' & Hu & _ & Hg & _).
  - apply wf_concrete. reflexivity.
  - cbn. lia.
  - exists s'. split; assumption.
Defined.

(** C9. Unlock is idempotent.  For every registry and every valid [pid],
    [unlock(pid)] on a registry whose [number[pid]] is already 0 returns the
    registry unchanged, and a second [unlock(pid)] after a first one changes
    nothing more. *)
Theorem unlock_idempotent (s : BakeryLock) (pid : Z) :
  wf s -> 0 <= pid < n s ->
  exists s',
    unlock pid s = Ok s' /\
    unlock pid s' = Ok s' /\
    (getitem (number s) pid = Ok 0 -> s' = s).
Proof.
  intros (Hn0 & Hlc & Hln) Hp.
  exists (set_number s (<[Z.to_nat pid:=0]> (number s))).
  unfold unlock. rewrite setitem_valid by lia. split; [reflexivity|].
  cbn [set_number number]. rewrite setitem_valid by (rewrite length_insert; lia).
  split.
  - unfold set_number; cbn. rewrite list_insert_insert_eq. reflexivity.
  - intros H0. destruct (getitem_valid (number s) pid ltac:(lia))
      as (x & Hx & Hg).
    rewrite Hg in H0. injection H0 as ->.
    unfold set_number. rewrite (list_insert_id _ _ _ Hx).
    destruct s; reflexivity.
Qed.

Lemma unlock_idempotent_witness :
  unlock 1 stale_registry = Ok stale_registry.
Proof.
  destruct (unlock_idempotent stale_registry 1) as (s' & Hu & _ & Hid).
  - apply wf_concrete. reflexivity.
  - cbn. lia.
  - rewrite Hu. f_equal. apply Hid. reflexivity.
Defined.

(** * Termination *)

(** C5. Termination under cooperative peers.  If every other slot reads
    [choosing = False] and [number = 0] and stays so, [lock(pid)] returns:
    within [7 * n + 4] steps both [while] loops have exited for every [j],
    [j = pid] included, whatever the caller's own slot held before. *)
Theorem lock_terminates (s : BakeryLock) (pid : Z) :
  wf s -> 0 <= pid < n s ->
  (forall j, 0 <= j < n s -> j <> pid ->
     getitem (choosing s) j = Ok false /\ getitem (number s) j = Ok 0) ->
  exists t,
    py_max (number s) = Ok t /\
    forall extra,
      lock (7 * length (number s) + 4 + extra) pid s
      = (mkBakeryLock (n s)
           (<[Z.to_nat pid:=false]> (choosing s))
           (<[Z.to_nat pid:=t + 1]> (number s)), CS).
Proof.
  intros Hwf Hp Hquiet. pose proof Hwf as (Hn0 & Hlc & Hln).
  destruct (run_doorway pid s Hwf Hp) as (t & Hmax & _ & _ & Hrun).
  exists t. split; [exact Hmax|]. intros extra.
  replace (7 * length (number s) + 4 + extra)%nat
    with (length (number s) + 4 + (6 * length (number s) + extra))%nat by lia.
  rewrite Hrun. apply run_more.
  set (s' := mkBakeryLock _ _ _).
  assert (Hwf' : wf s').
  { unfold wf, s'; cbn. rewrite !length_insert. lia. }
  assert (Hloop : loop_from s' 0 = WaitCh 0).
  { unfold loop_from, s'; cbn. destruct (Z.ltb_spec 0 (n s)); [reflexivity|lia]. }
  rewrite <- Hloop. apply (run_loop pid s' Hwf'); [exact Hp| |lia|cbn; lia].
  intros j Hj. cbn [n s'] in Hj.
  destruct (Z.eq_dec j pid) as [->|Hne].
  - split; [|apply blocks_self].
    unfold chs, s'; cbn. rewrite list_lookup_insert_eq by lia. reflexivity.
  - destruct (Hquiet j Hj Hne) as [Hc Hz].
    rewrite chs_getitem in Hc by lia. rewrite num_getitem in Hz by lia.
    injection Hc as Hc. injection Hz as Hz.
    assert (Hcj : chs s' j = false).
    { unfold chs, s' in *; cbn. rewrite list_lookup_insert_ne by lia. exact Hc. }
    assert (Hnj : num s' j = 0).
    { unfold num, s' in *; cbn. rewrite list_lookup_insert_ne by lia. exact Hz. }
    split; [exact Hcj|]. rewrite Hnj. reflexivity.
Qed.

Lemma lock_terminates_witness :
  lock 25 1 quiet_registry
  = (mkBakeryLock 3 [false; false; false] [0; 5; 0], CS).
Proof.
  destruct (lock_terminates quiet_registry 1) as (t & Hmax & Hlock).
  - apply wf_concrete. reflexivity.
  - cbn. lia.
  - intros j Hj Hne. cbn in Hj.
    assert (j = 0 \/ j = 2) as [-> | ->] by lia; split; reflexivity.
  - injection Hmax as <-. exact (Hlock 0%nat).
Defined.

(** * Process identities outside the registry *)

(** C7, as the code has it.  [lock(pid)] and [unlock(pid)] raise
    [IndexError] at their first statement, leaving the registry untouched,
    for every [pid] with [pid >= n] or [pid < -n]. *)
Theorem invalid_pid_raises (s : BakeryLock) (pid : Z) :
  wf s -> pid < - n s \/ n s <= pid ->
  unlock pid s = Raise IndexError /\
  step pid s CS = (s, Raised IndexError) /\
  step pid s Idle = (s, Raised IndexError) /\
  forall fuel, lock (S fuel) pid s = (s, Raised IndexError).
Proof.
  intros (Hn0 & Hlc & Hln) Hp.
  assert (Hu : unlock pid s = Raise IndexError).
  { unfold unlock. rewrite setitem_outside by lia. reflexivity. }
  assert (Hi : step pid s Idle = (s, Raised IndexError)).
  { cbn [step]. rewrite setitem_outside by lia. reflexivity. }
  split; [exact Hu|]. split; [cbn [step]; rewrite Hu; reflexivity|].
  split; [exact Hi|].
  intros fuel. unfold lock. cbn [run]. rewrite Hi. destruct fuel; reflexivity.
Qed.

Lemma invalid_pid_raises_witness :
  unlock 3 stale_registry = Raise IndexError /\
  lock 1 (-4) stale_registry = (stale_registry, Raised IndexError).
Proof.
  split.
  - apply (invalid_pid_raises stale_registry 3);
      [apply wf_concrete; reflexivity | cbn; lia].
  - apply (invalid_pid_raises stale_registry (-4));
      [apply wf_concrete; reflexivity | cbn; lia].
Defined.

(** C7 as stated fails: [-1] is outside [[0, n)], yet [unlock(-1)] and
    [lock(-1)] report nothing and write the last slot. *)
Lemma invalid_pid_counterexample :
  wf stale_registry /\ ~ (0 <= -1 < n stale_registry) /\
  unlock (-1) stale_registry
  = Ok (mkBakeryLock 3 [false; false; false] [2; 0; 0]) /\
  lock 25 (-1) (init 3)
  = (mkBakeryLock 3 [false; false; false] [0; 0; 1], CS).
Proof.
  split; [apply wf_concrete; reflexivity|]. split; [cbn; lia|].
  split; reflexivity.
Qed.

(** C10. Negative identities alias.  For [-n <= pid < 0] neither
    [unlock(pid)] nor [lock(pid)] raises: every write goes to slot
    [n + pid] and every read of the caller's own ticket comes from it, the
    registry after each step is the one identity [n + pid] would have left,
    and every step but the tie-break comparison [j < pid] of line 30 is the
    very same. *)
Theorem negative_pid_aliases (s : BakeryLock) (pid : Z) :
  wf s -> - n s <= pid < 0 ->
  unlock pid s = Ok (set_number s (<[Z.to_nat (n s + pid):=0]> (number s))) /\
  unlock pid s = unlock (n s + pid) s /\
  step pid s Idle
  = (set_choosing s (<[Z.to_nat (n s + pid):=true]> (choosing s)),
     MaxRead 0 None) /\
  (forall m, step pid s (Store m)
             = (set_number s (<[Z.to_nat (n s + pid):=m + 1]> (number s)),
                ClearCh)) /\
  getitem (number s) pid = getitem (number s) (n s + pid) /\
  (forall l, fst (step pid s l) = fst (step (n s + pid) s l)) /\
  (forall l, (forall j a, l <> EqB j a) ->
             step pid s l = step (n s + pid) s l) /\
  (forall fuel e, snd (lock fuel pid s) <> Raised e).
Proof.
  intros Hwf Hp. pose proof Hwf as (Hn0 & Hlc & Hln).
  assert (Hsn : forall x, setitem (number s) pid x
                          = setitem (number s) (n s + pid) x).
  { intros x. rewrite setitem_negative by lia. rewrite Hln. reflexivity. }
  assert (Hsc : forall x, setitem (choosing s) pid x
                          = setitem (choosing s) (n s + pid) x).
  { intros x. rewrite setitem_negative by lia. rewrite Hlc. reflexivity. }
  assert (Hgn : getitem (number s) pid = getitem (number s) (n s + pid)).
  { rewrite getitem_negative by lia. rewrite Hln. reflexivity. }
  assert (Hall : forall l, (forall j a, l <> EqB j a) ->
                           step pid s l = step (n s + pid) s l).
  { intros l Hl. destruct l; cbn [step]; unfold unlock;
      rewrite ?Hsn, ?Hsc, ?Hgn; try reflexivity.
    exfalso. eapply Hl. reflexivity. }
  split; [unfold unlock; rewrite Hsn, setitem_valid by lia; reflexivity|].
  split; [unfold unlock; rewrite Hsn; reflexivity|].
  split; [cbn [step]; rewrite Hsc, setitem_valid by lia; reflexivity|].
  split; [intros m; cbn [step]; rewrite Hsn, setitem_valid by lia; reflexivity|].
  split; [exact Hgn|]. split; [|split; [exact Hall|]].
  - intros l. destruct l as [| | | | | | | | |j a| |];
      try (rewrite Hall by discriminate; reflexivity).
    cbn [step]. rewrite Hgn.
    destruct (getitem (number s) (n s + pid)); reflexivity.
  - intros fuel e. apply run_never_raises; [exact Hwf|lia|exact I].
Qed.

Lemma negative_pid_aliases_witness :
  unlock (-1) stale_registry = unlock 2 stale_registry.
Proof.
  apply (negative_pid_aliases stale_registry (-1)).
  - apply wf_concrete. reflexivity.
  - cbn. lia.
Defined.

(** * The caller's own slot in the wait loop *)

(** C8. Self-inclusion is harmless.  The [for] loop of [lock(pid)] visits
    [j = pid] like every other index; once line 19 has run, the first
    [while] finds [choosing[pid]] false and the second finds its condition
    false whatever the caller's ticket is, so the iteration for [j = pid]
    is left after at most six steps without ever going round. *)
Theorem self_check_harmless (s0 : BakeryLock) (pid : Z) :
  wf s0 -> 0 <= pid < n s0 ->
  let s := fst (step pid s0 ClearCh) in
  loop_from s pid = WaitCh pid /\
  getitem (choosing s) pid = Ok false /\
  (forall v, blocks v v pid pid = false) /\
  exists k, (1 <= k <= 6)%nat /\
    forall r, run (k + r) pid s (WaitCh pid) = run r pid s (loop_from s (pid + 1)).
Proof.
  intros (Hn0 & Hlc & Hln) Hp. cbn [step].
  rewrite setitem_valid by lia. cbn [fst].
  set (s := set_choosing s0 _).
  assert (Hc : chs s pid = false).
  { unfold chs, s; cbn. rewrite list_lookup_insert_eq by lia. reflexivity. }
  assert (Hlen : Z.of_nat (length (choosing s)) = n s0).
  { unfold s; cbn. rewrite length_insert. exact Hlc. }
  split; [|split; [|split]].
  - unfold loop_from, s; cbn. destruct (Z.ltb_spec pid (n s0)); [reflexivity|lia].
  - rewrite chs_getitem by lia. rewrite Hc. reflexivity.
  - intros v. apply blocks_self.
  - apply run_iteration; try (unfold s; cbn; lia); try lia; auto.
    apply blocks_self.
Qed.

Lemma self_check_harmless_witness :
  exists k, (1 <= k <= 6)%nat /\
    run k 0 tie_registry (WaitCh 0) = (tie_registry, WaitCh 1).
Proof.
  destruct (self_check_harmless tie_registry 0) as (_ & _ & _ & k & Hk & Hrun).
  - apply wf_concrete. reflexivity.
  - cbn. lia.
  - exists k. split; [exact Hk|].
    specialize (Hrun 0%nat). rewrite Nat.add_0_r in Hrun. exact Hrun.
Defined.

(** * What every reachable state of the lock looks like *)

Lemma inv_exclusive np st i j :
  inv np st -> 0 <= i < np -> 0 <= j < np -> i <> j ->
  pcs st i = CS -> pcs st j <> CS.
Proof.
  intros (_ & _ & _ & Hpair) Hi Hj Hij Hci Hcj.
  destruct (Hpair i j Hi Hj Hij) as (Hpass & _).
  rewrite Hci, Hcj in Hpass. cbn in Hpass. destruct (Hpass I) as [_ []].
Qed.

Lemma inv_getitem np st i :
  inv np st -> 0 <= i < np ->
  getitem (number (mem st)) i = Ok (num (mem st) i) /\
  getitem (choosing (mem st)) i = Ok (chs (mem st) i).
Proof.
  intros ((_ & Hlc & Hln) & Hn & _) Hi.
  split; [apply num_getitem|apply chs_getitem]; lia.
Qed.

(** X1.  The registry tells the phase of each thread: [number[i]] is 0 exactly
    while thread [i] holds no ticket and positive otherwise, and
    [choosing[i]] is set exactly during lines 16 to 19. *)
Theorem slots_tell_phase (np : Z) (st : System) (i : Z) :
  reachable np st -> 0 <= i < np ->
  exists v,
    getitem (number (mem st)) i = Ok v /\
    getitem (choosing (mem st)) i = Ok (announcing (pcs st i)) /\
    0 <= v /\ (0 <? v) = holds_ticket (pcs st i).
Proof.
  intros Hr Hi. pose proof (reachable_inv np st ltac:(lia) Hr) as Hinv.
  destruct (inv_getitem np st i Hinv Hi) as [Hgn Hgc].
  destruct Hinv as (_ & _ & Hloc & _). specialize (Hloc i Hi).
  exists (num (mem st) i). rewrite Hgn, Hgc.
  destruct (pcs st i); cbn in Hloc |- *; flat;
    repeat split; try reflexivity; try lia; try congruence.
Qed.

Lemma slots_tell_phase_witness :
  exists v, getitem (number (mem (run_schedule 2 tie_schedule))) 1 = Ok v /\
            (0 <? v) = true.
Proof.
  destruct (slots_tell_phase 2 (run_schedule 2 tie_schedule) 1)
    as (v & Hv & _ & _ & Hh).
  - apply reachable_run_schedule. vm_compute. reflexivity.
  - lia.
  - exists v. split; [exact Hv|]. rewrite Hh. vm_compute. reflexivity.
Defined.

(** X2.  No thread ever raises, and the registry keeps its shape: [self.n] and
    the length of both lists stay what the constructor made them. *)
Theorem never_raises (np : Z) (st : System) :
  reachable np st -> 0 <= np ->
  n (mem st) = np /\
  Z.of_nat (length (choosing (mem st))) = np /\
  Z.of_nat (length (number (mem st))) = np /\
  forall i e, 0 <= i < np -> pcs st i <> Raised e.
Proof.
  intros Hr Hnp. destruct (reachable_inv np st Hnp Hr)
    as ((_ & Hlc & Hln) & Hn & Hloc & _).
  rewrite <- Hn at 1 2 3. repeat split; auto.
  intros i e Hi He. specialize (Hloc i Hi). rewrite He in Hloc. exact Hloc.
Qed.

Lemma never_raises_witness :
  Z.of_nat (length (number (mem (run_schedule 2 tie_schedule)))) = 2.
Proof.
  apply (never_raises 2 (run_schedule 2 tie_schedule)).
  - apply reachable_run_schedule. vm_compute. reflexivity.
  - lia.
Defined.

(** X3.  Service in ticket order: the thread inside its critical section holds
    the least ticket, ties broken by identity, among all threads whose
    [number] slot is not 0. *)
Theorem least_ticket_served (np : Z) (st : System) (i j : Z) :
  reachable np st -> 0 <= i < np -> 0 <= j < np -> i <> j ->
  pcs st i = CS -> num (mem st) j <> 0 ->
  getitem (number (mem st)) i = Ok (num (mem st) i) /\
  getitem (number (mem st)) j = Ok (num (mem st) j) /\
  (num (mem st) i < num (mem st) j \/
   (num (mem st) i = num (mem st) j /\ i < j)).
Proof.
  intros Hr Hi Hj Hij Hcs Hnz.
  pose proof (reachable_inv np st ltac:(lia) Hr) as Hinv.
  split; [apply (inv_getitem np st i Hinv Hi)|].
  split; [apply (inv_getitem np st j Hinv Hj)|].
  pose proof (inv_exclusive np st i j Hinv Hi Hj Hij Hcs) as Hncs.
  destruct Hinv as (_ & _ & Hloc & Hpair).
  pose proof (Hloc j Hj) as Hlj.
  destruct (Hpair i j Hi Hj Hij) as (Hpass & _).
  rewrite Hcs in Hpass. specialize (Hpass I). unfold before, prec in Hpass.
  destruct (pcs st j); cbn in Hlj; try congruence; try lia; tauto.
Qed.

Lemma least_ticket_served_witness :
  num (mem (run_schedule 2 tie_schedule)) 0
  = num (mem (run_schedule 2 tie_schedule)) 1 /\ 0 < 1.
Proof.
  destruct (least_ticket_served 2 (run_schedule 2 tie_schedule) 0 1)
    as (_ & _ & [Hlt|Heq]).
  - apply reachable_run_schedule. vm_compute. reflexivity.
  - lia.
  - lia.
  - lia.
  - vm_compute. reflexivity.
  - vm_compute. discriminate.
  - exfalso. vm_compute in Hlt. discriminate.
  - exact Heq.
Defined.

(** * Freedom from deadlock *)

Section Spin.
Variables (np p : Z) (rdn : Z -> Z) (rdc : Z -> bool) (j : Z).
Hypothesis Hflag : rdc j = false.
Hypothesis Hleast : ~ prec (rdn j) j (rdn p) p.

Lemma exits_now l b : wait_index l <> Some j -> exits np p rdn rdc j l b.
Proof.
  intros H. exists 0%nat. split; [lia|]. split; [|exact H].
  intros k' Hk'. lia.
Qed.

Lemma exits_step l b :
  wait_index l = Some j ->
  exits np p rdn rdc j (snd (tstep np p rdn rdc l)) b ->
  exits np p rdn rdc j l (S b).
Proof.
  intros Hl (k & Hk & Hpre & Hpost). exists (S k). split; [lia|].
  split; [|exact Hpost].
  intros [|k'] Hk'; [exact Hl|]. cbn [spin]. apply Hpre. lia.
Qed.

Lemma exits_more l b b' :
  (b <= b')%nat -> exits np p rdn rdc j l b -> exits np p rdn rdc j l b'.
Proof. intros Hb (k & Hk & H). exists k. split; [lia|exact H]. Qed.

Lemma exits_from : forall b, exits np p rdn rdc j
                               (if j + 1 <? np then WaitCh (j + 1) else CS) b.
Proof.
  intros b. apply exits_now. destruct (j + 1 <? np); cbn; [|discriminate].
  intros [= H]. lia.
Qed.

Lemma exits_EqB_fresh : exits np p rdn rdc j (EqB j (rdn j)) 1.
Proof.
  apply exits_step; [reflexivity|]. cbn [tstep snd].
  replace ((rdn j =? rdn p) && (j <? p)) with false; [apply exits_from|].
  unfold prec in Hleast.
  destruct (Z.eqb_spec (rdn j) (rdn p)), (Z.ltb_spec j p); cbn; auto; lia.
Qed.

Lemma exits_EqA : exits np p rdn rdc j (EqA j) 2.
Proof. apply exits_step; [reflexivity|]. exact exits_EqB_fresh. Qed.

Lemma exits_LtB_fresh : exits np p rdn rdc j (LtB j (rdn j)) 3.
Proof.
  apply exits_step; [reflexivity|]. cbn [tstep snd].
  unfold prec in Hleast.
  destruct (Z.ltb_spec (rdn j) (rdn p)); [lia|exact exits_EqA].
Qed.

Lemma exits_LtA : exits np p rdn rdc j (LtA j) 4.
Proof. apply exits_step; [reflexivity|]. exact exits_LtB_fresh. Qed.

Lemma exits_WaitNZ : exits np p rdn rdc j (WaitNZ j) 5.
Proof.
  apply exits_step; [reflexivity|]. cbn [tstep snd].
  destruct (rdn j =? 0); [apply exits_from|exact exits_LtA].
Qed.

Lemma exits_WaitCh : exits np p rdn rdc j (WaitCh j) 6.
Proof.
  apply exits_step; [reflexivity|]. cbn [tstep snd]. rewrite Hflag.
  exact exits_WaitNZ.
Qed.

(** Wherever the thread is in the iteration of peer [j], and whatever it
    read a while ago, six steps are enough. *)
Lemma exits_anywhere l :
  wait_index l = Some j -> exits np p rdn rdc j l 6.
Proof.
  intros Hl. destruct l as [| | | |i|i|i|i a|i|i a| |]; cbn in Hl;
    try discriminate; injection Hl as ->.
  - exact exits_WaitCh.
  - apply (exits_more _ 5); [lia|exact exits_WaitNZ].
  - apply (exits_more _ 4); [lia|exact exits_LtA].
  - apply exits_step; [reflexivity|]. cbn [tstep snd].
    destruct (a <? rdn p); [exact exits_WaitNZ|].
    apply (exits_more _ 2); [lia|exact exits_EqA].
  - apply (exits_more _ 2); [lia|exact exits_EqA].
  - apply exits_step; [reflexivity|]. cbn [tstep snd].
    destruct ((a =? rdn p) && (j <? p)); [exact exits_WaitNZ|].
    apply exits_from.
Qed.
End Spin.

Lemma wait_index_in_loop l : wait_index l <> None -> in_loop l /\ l <> CS.
Proof. destruct l; cbn; intros H; try congruence; split; auto; discriminate. Qed.

(** A step taken inside the [for] loop changes nothing but the thread's own
    control point. *)
Lemma sched_wait np st p :
  inv np st -> 0 <= p < np -> wait_index (pcs st p) <> None ->
  mem (sched st p) = mem st /\
  pcs (sched st p) p
  = snd (tstep np p (num (mem st)) (chs (mem st)) (pcs st p)) /\
  inv np (sched st p).
Proof.
  intros Hinv Hp Hw. split; [|split].
  - destruct (wait_index_in_loop _ Hw) as [Hl Hcs].
    pose proof (step_in_loop p (mem st) (pcs st p) Hl Hcs) as [Hs _].
    unfold sched. destruct (step p (mem st) (pcs st p)). exact Hs.
  - apply sched_own; assumption.
  - apply inv_sched; assumption.
Qed.

Lemma solo_spin np p : forall k st,
  inv np st -> 0 <= p < np ->
  (forall k', (k' < k)%nat ->
     wait_index (spin np p (num (mem st)) (chs (mem st)) k' (pcs st p))
     <> None) ->
  pcs (solo k st p) p
  = spin np p (num (mem st)) (chs (mem st)) k (pcs st p).
Proof.
  induction k as [|k IH]; intros st Hinv Hp Hpre; [reflexivity|].
  cbn [solo spin].
  destruct (sched_wait np st p Hinv Hp (Hpre 0%nat ltac:(lia)))
    as (Hmem & Hpc & Hinv').
  rewrite IH; [rewrite Hmem, Hpc; reflexivity|exact Hinv'|exact Hp|].
  intros k' Hk'. rewrite Hmem, Hpc. apply (Hpre (S k')). lia.
Qed.

(** Among finitely many tickets one is least. *)
Lemma least_ticket (f : Z -> Z) (m : nat) :
  exists p, 0 <= p < Z.of_nat (S m) /\
    forall q, 0 <= q < Z.of_nat (S m) -> ~ prec (f q) q (f p) p.
Proof.
  induction m as [|m (p & Hp & Hmin)].
  - exists 0. split; [lia|]. intros q Hq. unfold prec.
    assert (q = 0) as -> by lia. lia.
  - remember (Z.of_nat (S m)) as q0 eqn:Eq0.
    destruct (Z.lt_ge_cases (f q0) (f p)) as [Hlt|Hge].
    + exists q0. split; [lia|]. intros q Hq. unfold prec.
      destruct (Z.eq_dec q q0) as [->|Hne]; [lia|].
      specialize (Hmin q ltac:(lia)). unfold prec in Hmin. lia.
    + exists p. split; [lia|]. intros q Hq. unfold prec.
      destruct (Z.eq_dec q q0) as [->|Hne]; [lia|].
      specialize (Hmin q ltac:(lia)). unfold prec in Hmin. lia.
Qed.

Lemma all_waiting_or_not (f : Z -> pc) (m : nat) :
  (exists p, 0 <= p < Z.of_nat m /\ wait_index (f p) = None) \/
  (forall p, 0 <= p < Z.of_nat m -> wait_index (f p) <> None).
Proof.
  induction m as [|m [(p & Hp & Hn)|Hall]].
  - right. intros p Hp. lia.
  - left. exists p. split; [lia|exact Hn].
  - destruct (wait_index (f (Z.of_nat m))) eqn:E.
    + right. intros p Hp. destruct (Z.eq_dec p (Z.of_nat m)) as [->|Hne].
      * rewrite E. discriminate.
      * apply Hall. lia.
    + left. exists (Z.of_nat m). split; [lia|exact E].
Qed.

(** X4.  The lock never deadlocks: in every reachable state some thread is not
    busy-waiting at all, or is through with the peer it is waiting on after
    at most six steps of its own. *)
Theorem deadlock_free (np : Z) (st : System) :
  reachable np st -> 0 < np ->
  exists p, 0 <= p < np /\
    (wait_index (pcs st p) = None \/
     exists k, (k <= 6)%nat /\
       wait_index (pcs (solo k st p) p) <> wait_index (pcs st p)).
Proof.
  intros Hr Hnp. pose proof (reachable_inv np st ltac:(lia) Hr) as Hinv.
  destruct (all_waiting_or_not (pcs st) (Z.to_nat np)) as [(p & Hp & Hn)|Hall].
  { exists p. split; [lia|]. left. exact Hn. }
  destruct (least_ticket (num (mem st)) (Z.to_nat np - 1)) as (p & Hp & Hmin).
  replace (Z.of_nat (S (Z.to_nat np - 1))) with np in * by lia.
  exists p. split; [exact Hp|]. right.
  destruct (wait_index (pcs st p)) as [j|] eqn:Hj;
    [|exfalso; apply (Hall p); [lia|exact Hj]].
  assert (Hjr : 0 <= j < np).
  { destruct Hinv as (_ & _ & Hloc & _). specialize (Hloc p Hp).
    destruct (pcs st p); cbn in Hj, Hloc; try discriminate;
      injection Hj as <-; lia. }
  assert (Hflag : chs (mem st) j = false).
  { destruct Hinv as (_ & _ & Hloc & _). specialize (Hloc j Hjr).
    specialize (Hall j ltac:(lia)).
    destruct (pcs st j); cbn in Hall, Hloc; try congruence; tauto. }
  destruct (exits_anywhere np p (num (mem st)) (chs (mem st)) j Hflag
              (Hmin j Hjr) (pcs st p) Hj) as (k & Hk & Hpre & Hpost).
  exists k. split; [exact Hk|].
  rewrite (solo_spin np p k st Hinv Hp); [exact Hpost|].
  intros k' Hk'. rewrite (Hpre k' Hk'). discriminate.
Qed.

Lemma deadlock_free_witness :
  exists p, 0 <= p < 2 /\
    (wait_index (pcs (run_schedule 2 tie_schedule) p) = None \/
     exists k, (k <= 6)%nat /\
       wait_index (pcs (solo k (run_schedule 2 tie_schedule) p) p)
       <> wait_index (pcs (run_schedule 2 tie_schedule) p)).
Proof.
  apply (deadlock_free 2 (run_schedule 2 tie_schedule)).
  - apply reachable_run_schedule. vm_compute. reflexivity.
  - lia.
Defined.

(** * [lock] then [unlock] *)

(** X5.  Round trip.  On a registry whose other slots are all [(False, 0)],
    [lock(pid)] returns and the [unlock(pid)] that follows leaves every
    slot as it was, the caller's own reset to [(False, 0)]: on a registry
    at rest the pair draws ticket 1 and gives back the very same
    registry. *)
Theorem lock_unlock_round_trip (s : BakeryLock) (pid : Z) :
  wf s -> 0 <= pid < n s ->
  (forall j, 0 <= j < n s -> j <> pid ->
     getitem (choosing s) j = Ok false /\ getitem (number s) j = Ok 0) ->
  exists s1,
    lock (7 * length (number s) + 4) pid s = (s1, CS) /\
    unlock pid s1
    = Ok (mkBakeryLock (n s) (<[Z.to_nat pid:=false]> (choosing s))
            (<[Z.to_nat pid:=0]> (number s))) /\
    (getitem (choosing s) pid = Ok false ->
     getitem (number s) pid = Ok 0 ->
     getitem (number s1) pid = Ok 1 /\ unlock pid s1 = Ok s).
Proof.
  intros Hwf Hp Hquiet. pose proof Hwf as (Hn0 & Hlc & Hln).
  destruct (run_doorway pid s Hwf Hp) as (t & Hmax & Hin & Hall & Hrun).
  set (s1 := mkBakeryLock (n s) (<[Z.to_nat pid:=false]> (choosing s))
               (<[Z.to_nat pid:=t + 1]> (number s))) in *.
  assert (Hwf1 : wf s1).
  { unfold wf, s1; cbn. rewrite !length_insert. lia. }
  assert (Hlock : lock (7 * length (number s) + 4) pid s = (s1, CS)).
  { replace (7 * length (number s) + 4)%nat
      with (length (number s) + 4 + 6 * length (number s))%nat by lia.
    rewrite Hrun.
    assert (Hloop : loop_from s1 0 = WaitCh 0).
    { unfold loop_from, s1; cbn.
      destruct (Z.ltb_spec 0 (n s)); [reflexivity|lia]. }
    rewrite <- Hloop. apply (run_loop pid s1 Hwf1); [exact Hp| |lia|cbn; lia].
    intros j Hj. cbn [n s1] in Hj.
    destruct (Z.eq_dec j pid) as [->|Hne].
    - split; [|apply blocks_self].
      unfold chs, s1; cbn. rewrite list_lookup_insert_eq by lia. reflexivity.
    - destruct (Hquiet j Hj Hne) as [Hc Hz].
      rewrite chs_getitem in Hc by lia. rewrite num_getitem in Hz by lia.
      injection Hc as Hc. injection Hz as Hz.
      assert (Hcj : chs s1 j = false).
      { unfold chs, s1 in *; cbn. rewrite list_lookup_insert_ne by lia.
        exact Hc. }
      assert (Hnj : num s1 j = 0).
      { unfold num, s1 in *; cbn. rewrite list_lookup_insert_ne by lia.
        exact Hz. }
      split; [exact Hcj|]. rewrite Hnj. reflexivity. }
  assert (Hun : unlock pid s1
                = Ok (mkBakeryLock (n s) (<[Z.to_nat pid:=false]> (choosing s))
                        (<[Z.to_nat pid:=0]> (number s)))).
  { unfold unlock, s1; cbn [number].
    rewrite setitem_valid by (rewrite length_insert; lia).
    unfold set_number; cbn. rewrite list_insert_insert_eq. reflexivity. }
  exists s1. split; [exact Hlock|]. split; [exact Hun|].
  intros Hc0 Hn0'.
  destruct (getitem_valid (choosing s) pid ltac:(lia)) as (c & Hc & Hgc).
  destruct (getitem_valid (number s) pid ltac:(lia)) as (v & Hv & Hgv).
  rewrite Hgc in Hc0. rewrite Hgv in Hn0'.
  injection Hc0 as ->. injection Hn0' as ->.
  assert (Ht : t = 0).
  { apply list_elem_of_lookup in Hin as (k & Hk).
    pose proof (lookup_lt_Some _ _ _ Hk) as Hlt.
    destruct (Z.eq_dec (Z.of_nat k) pid) as [E|E].
    - rewrite <- E, Nat2Z.id in Hv. congruence.
    - destruct (Hquiet (Z.of_nat k) ltac:(lia) E) as [_ Hz].
      rewrite (getitem_lookup _ _ t) in Hz;
        [congruence|lia|rewrite Nat2Z.id; exact Hk]. }
  split.
  - unfold s1; cbn [number]. apply getitem_lookup; [lia|].
    rewrite list_lookup_insert_eq by lia. rewrite Ht. reflexivity.
  - rewrite Hun. rewrite (list_insert_id _ _ _ Hc), (list_insert_id _ _ _ Hv).
    destruct s; reflexivity.
Qed.

Lemma lock_unlock_round_trip_witness :
  exists s1, lock 25 1 (init 3) = (s1, CS) /\ unlock 1 s1 = Ok (init 3).
Proof.
  destruct (lock_unlock_round_trip (init 3) 1) as (s1 & Hl & _ & Hback).
  - apply wf_init. lia.
  - cbn. lia.
  - intros j Hj Hne. cbn in Hj.
    assert (j = 0 \/ j = 2) as [-> | ->] by lia; split; reflexivity.
  - exists s1. split; [exact Hl|]. apply Hback; reflexivity.
Defined.

(** * A registry with no slot *)

(** X6.  [BakeryLock(n)] with [n <= 0] has two empty lists, so that no process
    identity at all is accepted: [unlock(pid)] raises [IndexError], and
    [lock(pid)] raises it at line 13, for every [pid]. *)
Theorem empty_registry (np pid : Z) :
  np <= 0 ->
  choosing (init np) = [] /\ number (init np) = [] /\
  unlock pid (init np) = Raise IndexError /\
  forall fuel, lock (S fuel) pid (init np) = (init np, Raised IndexError).
Proof.
  intros Hnp.
  assert (E : init np = mkBakeryLock np [] []).
  { unfold init. replace (Z.to_nat np) with 0%nat by lia. reflexivity. }
  rewrite E. cbn [choosing number].
  split; [reflexivity|]. split; [reflexivity|]. split.
  - unfold unlock. cbn [number]. rewrite setitem_outside by (cbn; lia).
    reflexivity.
  - intros fuel. unfold lock. cbn [run step choosing].
    rewrite setitem_outside by (cbn; lia). destruct fuel; reflexivity.
Qed.

Lemma empty_registry_witness :
  unlock 0 (init 0) = Raise IndexError /\
  lock 1 (-1) (init (-2)) = (init (-2), Raised IndexError).
Proof.
  split.
  - apply (empty_registry 0 0). lia.
  - apply (empty_registry (-2) (-1)). lia.
Defined.

(** * What [lock] never writes *)

Lemma step_frame pid s l :
  wf s -> 0 <= pid < n s ->
  wf (fst (step pid s l)) /\ n (fst (step pid s l)) = n s /\
  forall k : nat, k <> Z.to_nat pid ->
    number (fst (step pid s l)) !! k = number s !! k /\
    choosing (fst (step pid s l)) !! k = choosing s !! k.
Proof.
  intros Hwf Hp. pose proof Hwf as (Hn0 & Hlc & Hln).
  assert (Hsame : wf s /\ n s = n s /\
            forall k : nat, k <> Z.to_nat pid ->
              number s !! k = number s !! k /\
              choosing s !! k = choosing s !! k) by auto.
  destruct l; cbn [step]; unfold unlock;
    rewrite ?setitem_valid by lia;
    repeat match goal with
    | |- context [match getitem ?l ?i with _ => _ end] =>
        destruct (getitem l i) as [[]|]
    | |- context [if ?b then _ else _] => destruct b
    | |- context [match ?m with Some _ => _ | None => _ end] => destruct m
    end; cbn [fst]; try exact Hsame.
  - split; [apply wf_set_choosing; exact Hwf|]. split; [reflexivity|].
    intros k Hk. cbn. rewrite list_lookup_insert_ne by congruence. auto.
  - split; [apply wf_set_number; exact Hwf|]. split; [reflexivity|].
    intros k Hk. cbn. rewrite list_lookup_insert_ne by congruence. auto.
  - split; [apply wf_set_choosing; exact Hwf|]. split; [reflexivity|].
    intros k Hk. cbn. rewrite list_lookup_insert_ne by congruence. auto.
  - split; [apply wf_set_number; exact Hwf|]. split; [reflexivity|].
    intros k Hk. cbn. rewrite list_lookup_insert_ne by congruence. auto.
Qed.

(** X7.  One writer per slot.  However far [lock(pid)] gets, from whatever
    control point, and [unlock(pid)] after it, every slot of [choosing] and
    [number] other than the caller's own holds what it held before. *)
Theorem single_writer (pid : Z) (fuel : nat) (s : BakeryLock) (l : pc) :
  wf s -> 0 <= pid < n s ->
  forall k : nat, k <> Z.to_nat pid ->
    (number (fst (run fuel pid s l)) !! k = number s !! k /\
     choosing (fst (run fuel pid s l)) !! k = choosing s !! k) /\
    (number (fst (step pid s CS)) !! k = number s !! k /\
     choosing (fst (step pid s CS)) !! k = choosing s !! k).
Proof.
  intros Hwf Hp k Hk. split; [|apply step_frame; assumption].
  revert s l Hwf Hp. induction fuel as [|f IH]; intros s l Hwf Hp; [cbn; auto|].
  destruct (pc_halted l) as [Hh|[Hcs Hr]].
  - destruct l; cbn in Hh; try destruct Hh; cbn; auto.
  - rewrite run_S by assumption.
    destruct (step_frame pid s l Hwf Hp) as (Hwf' & Hn' & Hfr).
    destruct (IH (fst (step pid s l)) (snd (step pid s l)) Hwf'
                ltac:(rewrite Hn'; exact Hp)) as [H1 H2].
    destruct (Hfr k Hk) as [H3 H4]. split; congruence.
Qed.

Lemma single_writer_witness :
  number (fst (lock 25 1 stale_registry)) !! 2%nat = Some 5.
Proof.
  destruct (single_writer 1 25 stale_registry Idle) with (k := 2%nat)
    as [[Hn _] _].
  - apply wf_concrete. reflexivity.
  - cbn. lia.
  - cbn. lia.
  - unfold lock. rewrite Hn. reflexivity.
Defined.

(** X8.  The [for] loop of [lock] only reads: from any control point at or after
    line 22, on any registry whatever, however many steps are taken and even
    if one of them raises, the registry is left as it was. *)
Theorem wait_loop_reads_only (pid : Z) (fuel : nat) (s : BakeryLock) (l : pc) :
  in_loop l -> fst (run fuel pid s l) = s.
Proof. intros Hl. apply run_in_loop. exact Hl. Qed.

Lemma wait_loop_reads_only_witness :
  fst (run 30 1 tie_registry (WaitCh 0)) = tie_registry.
Proof. apply (wait_loop_reads_only 1 30 tie_registry (WaitCh 0)). exact I. Defined.

(** * The counter under the lock *)

Lemma inv_ext np st st' :
  mem st = mem st' -> (forall i, pcs st i = pcs st' i) ->
  inv np st -> inv np st'.
Proof.
  intros Hm Hp (Hwf & Hn & Hloc & Hpair). unfold inv. rewrite <- Hm.
  split; [exact Hwf|]. split; [exact Hn|]. split.
  - intros i Hi. rewrite <- Hp. apply Hloc. exact Hi.
  - intros i j Hi Hj Hij. rewrite <- !Hp. apply Hpair; assumption.
Qed.

Lemma sumZ_ext f g k :
  (forall i, 0 <= i < Z.of_nat k -> f i = g i) -> sumZ f k = sumZ g k.
Proof.
  induction k as [|k IH]; intros H; [reflexivity|].
  cbn [sumZ]. rewrite IH, (H (Z.of_nat k)); [reflexivity|lia|].
  intros i Hi. apply H. lia.
Qed.

Lemma sumZ_upd f p v k :
  0 <= p < Z.of_nat k ->
  sumZ (fun i => if i =? p then v else f i) k = sumZ f k - f p + v.
Proof.
  induction k as [|k IH]; intros Hp; [lia|]. cbn [sumZ].
  destruct (Z.eqb_spec (Z.of_nat k) p) as [E|E].
  - rewrite (sumZ_ext _ f k).
    + rewrite E. lia.
    + intros i Hi. destruct (Z.eqb_spec i p); [lia|reflexivity].
  - rewrite IH by lia. lia.
Qed.

Lemma sumZ_const c k : sumZ (fun _ => c) k = Z.of_nat k * c.
Proof. induction k as [|k IH]; cbn [sumZ]; [lia|]. rewrite IH. lia. Qed.

(** To the lock, a step of [process_work] is a step of [lock] or [unlock],
    or nothing at all. *)
Lemma process_work_view p K s c w :
  let '(s', c', w') := process_work p K s c w in
  (s' = s /\ view w' = view w) \/ (s', view w') = step p s (view w).
Proof.
  destruct w as [d l|d i|]; [destruct l|destruct i|];
    cbn [process_work view increment];
    try (left; split; reflexivity);
    try (destruct (step p s _); right; reflexivity).
  cbn [step]. destruct (unlock p s); right; [|reflexivity].
  unfold next_iteration. destruct (d + 1 <? K); reflexivity.
Qed.

Lemma wsched_lock np K w p :
  inv np (lock_system w) -> 0 <= p < np -> inv np (lock_system (wsched K w p)).
Proof.
  intros Hinv Hp. pose proof (process_work_view p K (the_lock w) (counter w)
                                (threads w p)) as Hv.
  unfold wsched.
  destruct (process_work p K (the_lock w) (counter w) (threads w p))
    as [[s' c'] w'].
  destruct Hv as [[-> Hv]|Hv].
  - apply (inv_ext np (lock_system w)); [reflexivity| |exact Hinv].
    intros i. cbn. unfold wupd. destruct (Z.eqb_spec i p) as [->|];
      [symmetry; exact Hv|reflexivity].
  - apply (inv_ext np (sched (lock_system w) p));
      [| |apply inv_sched; assumption].
    + unfold sched. cbn [lock_system mem pcs]. rewrite <- Hv. reflexivity.
    + intros i. unfold sched. cbn [lock_system mem pcs]. rewrite <- Hv.
      cbn. unfold upd, wupd. destruct (i =? p); reflexivity.
Qed.

Lemma winv_start np K : 0 <= np -> winv np K (start np K).
Proof.
  intros Hnp. split; [|split].
  - apply (inv_ext np (boot np)); [reflexivity| |apply inv_boot; exact Hnp].
    intros i. cbn. unfold next_iteration. destruct (0 <? K); reflexivity.
  - intros i Hi. cbn. unfold next_iteration.
    destruct (Z.ltb_spec 0 K); cbn; lia.
  - cbn [start counter count threads].
    rewrite (sumZ_ext _ (fun _ => 0)); [rewrite sumZ_const; lia|].
    intros i Hi. unfold next_iteration. destruct (Z.ltb_spec 0 K); cbn; lia.
Qed.

Lemma winv_sched np K w p :
  winv np K w -> 0 <= p < np -> winv np K (wsched K w p).
Proof.
  intros (Hinv & Hok & Hsum) Hp.
  split; [apply wsched_lock; assumption|].
  assert (Hexcl : forall j, 0 <= j < np -> j <> p ->
            view (threads w p) = CS -> view (threads w j) <> CS).
  { intros j Hj Hne. apply (inv_exclusive np (lock_system w) p j); auto. }
  assert (Hnr : forall e, view (threads w p) <> Raised e).
  { intros e He. destruct Hinv as (_ & _ & Hloc & _).
    specialize (Hloc p Hp). cbn in Hloc. rewrite He in Hloc. exact Hloc. }
  pose proof (Hok p Hp) as Hokp.
  unfold wsched.
  destruct (threads w p) as [d l|d i|] eqn:Ht.
  - (* inside lock *)
    assert (Hgen : forall s' l', l <> CS ->
              process_work p K (the_lock w) (counter w) (InLock d l)
              = (s', counter w, InLock d l') ->
              let w1 := mkWorld s' (counter w)
                          (wupd (threads w) p (InLock d l')) in
              (forall i, 0 <= i < np ->
                 thread_ok K (count (counter w1)) (threads w1 i)) /\
              count (counter w1)
              = sumZ (fun i => completed K (threads w1 i)) (Z.to_nat np)).
    { intros s' l' _ _. cbn. split.
      - intros i Hi. unfold wupd. destruct (Z.eqb_spec i p) as [->|];
          [exact Hokp|apply Hok; exact Hi].
      - rewrite Hsum. apply sumZ_ext. intros i Hi. unfold wupd.
        destruct (Z.eqb_spec i p) as [->|]; [rewrite Ht|]; reflexivity. }
    destruct l;
      try (cbn [process_work];
           destruct (step p (the_lock w) _) as [s' l'] eqn:Hs;
           apply (Hgen s' l'); [discriminate|cbn [process_work]; rewrite Hs;
                                             reflexivity]).
    cbn [process_work increment]. cbn. split.
    + intros i Hi. unfold wupd. destruct (Z.eqb_spec i p) as [->|];
        [cbn in Hokp |- *; lia|apply Hok; exact Hi].
    + rewrite Hsum. apply sumZ_ext. intros i Hi. unfold wupd.
      destruct (Z.eqb_spec i p) as [->|]; [rewrite Ht|]; reflexivity.
  - (* inside increment, or about to unlock *)
    destruct i as [|t|].
    + cbn [process_work increment]. cbn. split.
      * intros i Hi. unfold wupd. destruct (Z.eqb_spec i p) as [->|];
          [cbn in Hokp |- *; lia|apply Hok; exact Hi].
      * rewrite Hsum. apply sumZ_ext. intros i Hi. unfold wupd.
        destruct (Z.eqb_spec i p) as [->|]; [rewrite Ht|]; reflexivity.
    + cbn [process_work increment]. cbn. cbn in Hokp.
      destruct Hokp as [Hd ->]. split.
      * intros i Hi. unfold wupd. destruct (Z.eqb_spec i p) as [->|Hne];
          [cbn; lia|].
        specialize (Hok i Hi).
        pose proof (Hexcl i Hi Hne eq_refl) as Hn.
        destruct (threads w i) as [d' l'|d' i'|]; cbn in Hok, Hn |- *;
          [exact Hok|congruence|exact I].
      * rewrite (sumZ_ext _ (fun i => if i =? p then d + 1
                                      else completed K (threads w i)))
          by (intros i Hi; unfold wupd; destruct (i =? p); reflexivity).
        rewrite sumZ_upd by lia. rewrite <- Hsum, Ht. cbn. lia.
    + cbn [process_work].
      destruct (unlock p (the_lock w)) as [s'|e] eqn:Hu.
      * cbn. split.
        -- intros i Hi. unfold wupd.
           destruct (Z.eqb_spec i p) as [->|]; [|apply Hok; exact Hi].
           unfold next_iteration. cbn in Hokp.
           destruct (Z.ltb_spec (d + 1) K); cbn; lia.
        -- rewrite Hsum. apply sumZ_ext. intros i Hi. unfold wupd.
           destruct (Z.eqb_spec i p) as [->|]; [rewrite Ht|reflexivity].
           unfold next_iteration. cbn in Hokp |- *.
           destruct (Z.ltb_spec (d + 1) K); cbn; lia.
      * cbn. split.
        -- intros i Hi. unfold wupd.
           destruct (Z.eqb_spec i p) as [->|]; [|apply Hok; exact Hi].
           cbn in Hokp |- *. lia.
        -- exfalso.
           pose proof (wsched_lock np K w p Hinv Hp) as (_ & _ & Hloc & _).
           specialize (Hloc p Hp). unfold wsched in Hloc.
           rewrite Ht in Hloc. cbn [process_work] in Hloc.
           rewrite Hu in Hloc. cbn in Hloc. unfold wupd in Hloc.
           rewrite Z.eqb_refl in Hloc. exact Hloc.
  - cbn [process_work]. cbn. split.
    + intros i Hi. unfold wupd. destruct (Z.eqb_spec i p) as [->|];
        [exact I|apply Hok; exact Hi].
    + rewrite Hsum. apply sumZ_ext. intros i Hi. unfold wupd.
      destruct (Z.eqb_spec i p) as [->|]; [rewrite Ht|]; reflexivity.
Qed.

Lemma wreachable_winv np K w : 0 <= np -> wreachable np K w -> winv np K w.
Proof.
  intros Hnp. induction 1 as [|w p Hr IH Hp].
  - apply winv_start; exact Hnp.
  - apply winv_sched; assumption.
Qed.

Lemma wreachable_fold np K ps w :
  wreachable np K w -> Forall (fun p => 0 <= p < np) ps ->
  wreachable np K (fold_left (wsched K) ps w).
Proof.
  intros Hr Hps. revert w Hr.
  induction Hps as [|p ps Hp _ IH]; intros w Hr; cbn.
  - exact Hr.
  - apply IH. apply wreach_sched; assumption.
Qed.

Lemma wreachable_run_world np K ps :
  forallb (fun p => (0 <=? p) && (p <? np)) ps = true ->
  wreachable np K (run_world np K ps).
Proof.
  intros H. apply wreachable_fold; [apply wreach_start|].
  apply Forall_forall. intros p Hin.
  rewrite forallb_forall in H. apply list_elem_of_In in Hin.
  specialize (H p Hin). lia.
Qed.

Lemma all_finished_spec np w :
  all_finished np w = true ->
  forall i, 0 <= i < np -> threads w i = Finished.
Proof.
  unfold all_finished. rewrite forallb_forall. intros H i Hi.
  specialize (H (Z.to_nat i)). rewrite Z2Nat.id in H by lia.
  destruct (threads w i); [| |reflexivity];
    discriminate H; apply in_seq; lia.
Qed.

Lemma finished_count np K w :
  0 <= np -> wreachable np K w -> all_finished np w = true ->
  count (counter w) = np * Z.max 0 K.
Proof.
  intros Hnp Hr Hfin. destruct (wreachable_winv np K w Hnp Hr) as (_ & _ & ->).
  rewrite (sumZ_ext _ (fun _ => Z.max 0 K)).
  - rewrite sumZ_const. lia.
  - intros i Hi. rewrite (all_finished_spec np w Hfin i) by lia. reflexivity.
Qed.

(** X10.  No lost increment.  However the steps of [n_processes] threads
    running [process_work] with [n_iterations] iterations are interleaved,
    once all of them have ended the counter holds exactly
    [n_processes * n_iterations]. *)
Theorem no_lost_increments (np K : Z) (w : World) :
  0 <= np -> 0 <= K -> wreachable np K w -> all_finished np w = true ->
  count (counter w) = np * K.
Proof.
  intros Hnp HK Hr Hfin. rewrite (finished_count np K w Hnp Hr Hfin). lia.
Qed.

Lemma no_lost_increments_witness :
  count (counter (run_world 3 2 serial_schedule)) = 3 * 2.
Proof.
  apply (no_lost_increments 3 2 (run_world 3 2 serial_schedule)).
  - lia.
  - lia.
  - apply wreachable_run_world. vm_compute. reflexivity.
  - vm_compute. reflexivity.
Defined.

(** X11.  [main] prints the same number twice: whatever schedule lets its three
    threads end, the final counter value is the expected 6. *)
Theorem main_final_is_expected (ps : list Z) (final expected : Z) :
  forallb (fun p => (0 <=? p) && (p <? 3)) ps = true ->
  main ps = Some (final, expected) ->
  final = expected /\ expected = 6.
Proof.
  intros Hps. unfold main. cbn zeta.
  destruct (all_finished 3 (run_world 3 2 ps)) eqn:Hfin; [|discriminate].
  intros [= <- <-].
  rewrite (finished_count 3 2 (run_world 3 2 ps)); [lia|lia| |exact Hfin].
  apply wreachable_run_world. exact Hps.
Qed.

Lemma main_final_is_expected_witness : main serial_schedule = Some (6, 6).
Proof.
  destruct (main serial_schedule) as [[a b]|] eqn:E.
  - destruct (main_final_is_expected serial_schedule a b) as [-> ->];
      [vm_compute; reflexivity|exact E|reflexivity].
  - vm_compute in E. discriminate.
Defined.

(** X12.  At every moment the counter equals the number of increments completed
    so far, and the [temp] a thread holds inside [increment] is the current
    value of the counter: it never writes back a stale one. *)
Theorem counter_counts_completed (np K : Z) (w : World) :
  0 <= np -> wreachable np K w ->
  count (counter w)
  = sumZ (fun i => completed K (threads w i)) (Z.to_nat np) /\
  forall i d t, 0 <= i < np -> threads w i = InIncr d (Put t) ->
                t = count (counter w).
Proof.
  intros Hnp Hr. destruct (wreachable_winv np K w Hnp Hr) as (_ & Hok & Hsum).
  split; [exact Hsum|]. intros i d t Hi Ht.
  specialize (Hok i Hi). rewrite Ht in Hok. cbn in Hok. tauto.
Qed.

Lemma counter_counts_completed_witness :
  0 = count (counter (run_world 3 2 entering_schedule)).
Proof.
  destruct (counter_counts_completed 3 2 (run_world 3 2 entering_schedule))
    as [_ Htemp].
  - lia.
  - apply wreachable_run_world. vm_compute. reflexivity.
  - apply (Htemp 0 0 0); [lia|vm_compute; reflexivity].
Defined.

(** X13.  Only one thread at a time is between the return of its [lock.lock(pid)]
    and its [lock.unlock(pid)], and so inside [counter.increment()]. *)
Theorem one_thread_increments (np K : Z) (w : World) (i j : Z) :
  wreachable np K w -> 0 <= i < np -> 0 <= j < np -> i <> j ->
  view (threads w i) = CS -> view (threads w j) <> CS.
Proof.
  intros Hr Hi Hj Hij. destruct (wreachable_winv np K w ltac:(lia) Hr) as (Hinv & _).
  apply (inv_exclusive np (lock_system w) i j); assumption.
Qed.

Lemma one_thread_increments_witness :
  view (threads (run_world 3 2 entering_schedule) 1) <> CS.
Proof.
  apply (one_thread_increments 3 2 (run_world 3 2 entering_schedule) 0 1).
  - apply wreachable_run_world. vm_compute. reflexivity.
  - lia.
  - lia.
  - lia.
  - vm_compute. reflexivity.
Defined.

(** * The counter without the lock *)

(** X14.  [increment] is not atomic.  When two bare calls on a counter have both
    returned, the counter is one or two higher; it is only one higher when
    both read before either writes, and two when they run one after the
    other. *)
Theorem bare_increment_race (c : SharedCounter) (ws : list bool) :
  (forall c' , bare_run c ws = (c', Back, Back) ->
     count c' = count c + 1 \/ count c' = count c + 2) /\
  bare_run c [false; true; false; true]
  = (mkSharedCounter (count c + 1), Back, Back) /\
  bare_run c [false; false; true; true]
  = (mkSharedCounter (count c + 1 + 1), Back, Back).
Proof.
  split; [|split; reflexivity].
  assert (H : forall st, race_inv (count c) st ->
                         race_inv (count c) (fold_left bare_step ws st)).
  { induction ws as [|w ws IH]; intros st Hst; [exact Hst|].
    cbn [fold_left]. apply IH. destruct st as [[c1 a] b].
    destruct w, a, b; cbn in Hst |- *; lia. }
  intros c' Hrun. specialize (H (c, Fetch, Fetch) eq_refl).
  unfold bare_run in Hrun. rewrite Hrun in H. exact H.
Qed.

(** * Edge cases of [process_work] *)

(** X15.  With [n_iterations <= 0] the [for] loop has no iteration: the threads
    never call [lock], and neither the registry nor the counter ever
    changes. *)
Theorem zero_iterations (np K : Z) (w : World) :
  K <= 0 -> wreachable np K w ->
  the_lock w = init np /\ counter w = mkSharedCounter 0 /\
  forall i, threads w i = Finished.
Proof.
  intros HK. induction 1 as [|w p Hr (Hl & Hc & Ht) Hp].
  - cbn. repeat split. intros i. unfold next_iteration.
    destruct (Z.ltb_spec 0 K); [lia|reflexivity].
  - unfold wsched. rewrite (Ht p). cbn. repeat split; auto.
    intros i. unfold wupd. destruct (i =? p); [reflexivity|apply Ht].
Qed.

Lemma zero_iterations_witness :
  counter (run_world 3 0 [0; 1; 2; 0]) = mkSharedCounter 0.
Proof.
  apply (zero_iterations 3 0 (run_world 3 0 [0; 1; 2; 0])).
  - lia.
  - apply wreachable_run_world. vm_compute. reflexivity.
Defined.

(** * A thread at its own index, on a concrete run *)

Lemma own_iteration_progress_witness :
  pcs (sched (run_schedule 2 [0; 0; 0; 0; 0; 0]) 0) 0 = WaitNZ 0.
Proof.
  apply (own_iteration_progress 2 (run_schedule 2 [0; 0; 0; 0; 0; 0]) 0).
  - apply reachable_run_schedule. vm_compute. reflexivity.
  - lia.
  - reflexivity.
Defined.
